(** * Minesweeper: the knowledge base of [src/minesweeper.py]

    A shallow embedding of the classes [Sentence], [MinesweeperAI] and
    [Minesweeper], and the properties of the inference engine and of the
    board.  The board's random draws are an explicit list of raw numbers;
    an exception is a value [Raise e]; what [print] writes is returned as
    a list of characters.

    Python sets of cells are finite sets [gset (Z * Z)]; a loop over a set
    ([for mine in new_mines], [for move in self.safes]) visits [elements] of
    the set, one fixed enumeration standing for Python's unspecified
    iteration order (the last section shows that the marking loops do not
    depend on it).  Sentences are values: no two
    entries of [knowledge] are ever the same object in the source, each
    being built by a fresh [Sentence(...)].  Integers are unbounded, as in
    Python.  The [while] loop of [update_knowledge] is driven by fuel:
    [None] means the fuel ran out before a pass reported no change. *)

From stdpp Require Import base gmap sets list numbers.
From Stdlib Require Import Ascii.

#[local] Set Warnings "-clear-no-such-hyp".
Local Open Scope Z_scope.

(** A cell is the tuple [(row, column)]. *)
Abbreviation Cell := (Z * Z)%type.

(** [range(lo, hi)]: empty when [hi <= lo]. *)
Definition range (lo hi : Z) : list Z := seqZ lo (hi - lo).

(** The nested loops [for i in range(..): for j in range(..)] visit the
    pairs in this order; also [itertools.product]. *)
Definition product (rows cols : list Z) : list Cell :=
  row ← rows; col ← cols; [(row, col)].

(** ** class Sentence *)
Module Sentence.

Record t : Type := mk {
  cells : gset Cell;
  count : Z;
  mine_cell : gset Cell;
  safe_cell : gset Cell
}.

(** [Sentence(cells, count)] *)
Definition init (cs : gset Cell) (n : Z) : t := mk cs n ∅ ∅.

(** [__eq__]: same cells and same count; the two history sets are ignored. *)
Definition eqb (self other : t) : bool :=
  bool_decide (cells self = cells other) && bool_decide (count self = count other).

(** [sentence in knowledge], decided by [__eq__]. *)
Definition contains (s : t) (l : list t) : bool := existsb (eqb s) l.

Definition known_mines (self : t) : gset Cell :=
  if bool_decide (count self = Z.of_nat (size (cells self))) then cells self else ∅.

Definition known_safes (self : t) : gset Cell :=
  if bool_decide (count self = 0) then cells self else ∅.

Definition mark_mine (cell : Cell) (self : t) : t :=
  if bool_decide (cell ∈ cells self)
  then mk (cells self ∖ {[cell]}) (count self - 1)
          ({[cell]} ∪ mine_cell self) (safe_cell self)
  else self.

Definition mark_safe (cell : Cell) (self : t) : t :=
  if bool_decide (cell ∈ cells self)
  then mk (cells self ∖ {[cell]}) (count self)
          (mine_cell self) ({[cell]} ∪ safe_cell self)
  else self.

End Sentence.

(** ** class MinesweeperAI *)
Module MinesweeperAI.

Record t : Type := mk {
  height : Z;
  width : Z;
  moves_made : gset Cell;
  mines : gset Cell;
  safes : gset Cell;
  knowledge : list Sentence.t
}.

(** [MinesweeperAI(height, width)] *)
Definition init (h w : Z) : t := mk h w ∅ ∅ ∅ [].

Definition set_knowledge (K : list Sentence.t) (self : t) : t :=
  mk (height self) (width self) (moves_made self) (mines self) (safes self) K.

Definition mark_mine (cell : Cell) (self : t) : t :=
  mk (height self) (width self) (moves_made self)
     ({[cell]} ∪ mines self) (safes self)
     (Sentence.mark_mine cell <$> knowledge self).

Definition mark_safe (cell : Cell) (self : t) : t :=
  mk (height self) (width self) (moves_made self)
     (mines self) ({[cell]} ∪ safes self)
     (Sentence.mark_safe cell <$> knowledge self).

(** *** add_knowledge *)

(** [0 <= row < self.height and 0 <= collumn < self.width] *)
Definition in_bounds (self : t) (rc : Cell) : bool :=
  bool_decide (0 ≤ rc.1 < height self) && bool_decide (0 ≤ rc.2 < width self).

(** The 3x3 block around [cell], in loop order (lines 211-212). *)
Definition block (cell : Cell) : list Cell :=
  product (range (cell.1 - 1) (cell.1 + 2)) (range (cell.2 - 1) (cell.2 + 2)).

(** The body of the neighbour loop (lines 214-224), on the pair
    [(known_mines_count, neighbours)]. *)
Definition visit (self : t) (cell : Cell) (acc : Z * gset Cell) (rc : Cell)
    : Z * gset Cell :=
  let '(known_mines_count, neighbours) := acc in
  if bool_decide (rc = cell) then acc
  else if in_bounds self rc then
    if bool_decide (rc ∈ mines self) then (known_mines_count + 1, neighbours)
    else if bool_decide (rc ∉ safes self) then (known_mines_count, {[rc]} ∪ neighbours)
    else acc
  else acc.

Definition scan (self : t) (cell : Cell) : Z * gset Cell :=
  foldl (visit self cell) (0, ∅) (block cell).

(** Lines 202-226: the state after the guarded block, and the pair
    [(neighbours, adjusted_count)] the Sentence is built from. *)
Definition gather (cell : Cell) (count : Z) (self : t) : t * (gset Cell * Z) :=
  if bool_decide (cell ∉ moves_made self) then
    let self1 := mk (height self) (width self) ({[cell]} ∪ moves_made self)
                    (mines self) ({[cell]} ∪ safes self) (knowledge self) in
    let '(known_mines_count, neighbours) := scan self1 cell in
    (self1, (neighbours, count - known_mines_count))
  else (self, (∅, count - 0)).

(** The Sentence of line 229. *)
Definition new_sentence (cell : Cell) (count : Z) (self : t) : Sentence.t :=
  let '(_, (neighbours, adjusted_count)) := gather cell count self in
  Sentence.init neighbours adjusted_count.

(** Lines 202-229: everything before the call of [update_knowledge]. *)
Definition add_sentence (cell : Cell) (count : Z) (self : t) : t :=
  let '(self1, (neighbours, adjusted_count)) := gather cell count self in
  if bool_decide (neighbours ≠ ∅)
  then set_knowledge (knowledge self1 ++ [Sentence.init neighbours adjusted_count]) self1
  else self1.

(** *** update_knowledge *)

(** Lines 240-250: the aggregate sets [(new_mines, new_safes)]. *)
Definition collect (K : list Sentence.t) : gset Cell * gset Cell :=
  foldl (λ '(new_mines, new_safes) sentence,
           let mines := Sentence.known_mines sentence in
           let safes := Sentence.known_safes sentence in
           (if bool_decide (mines ≠ ∅) then new_mines ∪ mines else new_mines,
            if bool_decide (safes ≠ ∅) then new_safes ∪ safes else new_safes))
        (∅, ∅) K.

(** Lines 252-255, on the pair [(self, updated)]. *)
Definition mark_new_mines (new_mines : list Cell) (st : t * bool) : t * bool :=
  foldl (λ '(self, updated) mine,
           if bool_decide (mine ∉ mines self)
           then (mark_mine mine self, true)
           else (self, updated))
        st new_mines.

(** Lines 256-258. *)
Definition mark_new_safes (new_safes : list Cell) (st : t * bool) : t * bool :=
  foldl (λ '(self, updated) safe, (mark_safe safe self, true)) st new_safes.

(** Line 261. *)
Definition clear_empty (self : t) : t :=
  set_knowledge (filter (λ s, Sentence.cells s ≠ ∅) (knowledge self)) self.

(** Lines 267-276: the body of the inner loop, on [(new_sentences, updated)]. *)
Definition combine_step (K : list Sentence.t) (sentence_1 : Sentence.t)
    (acc : list Sentence.t * bool) (sentence_2 : Sentence.t)
    : list Sentence.t * bool :=
  let '(new_sentences, updated) := acc in
  if negb (Sentence.eqb sentence_1 sentence_2)
     && bool_decide (Sentence.cells sentence_2 ⊆ Sentence.cells sentence_1)
     && bool_decide (Sentence.cells sentence_2 ≠ ∅)
  then
    let new_cells := Sentence.cells sentence_1 ∖ Sentence.cells sentence_2 in
    let new_count := Sentence.count sentence_1 - Sentence.count sentence_2 in
    if bool_decide (0 ≤ new_count) then
      let inferred_sentence := Sentence.init new_cells new_count in
      if negb (Sentence.contains inferred_sentence K)
         && negb (Sentence.contains inferred_sentence new_sentences)
      then (new_sentences ++ [inferred_sentence], true)
      else acc
    else acc
  else acc.

(** Lines 264-276: both loops over [self.knowledge]. *)
Definition combine (K : list Sentence.t) (acc : list Sentence.t * bool)
    : list Sentence.t * bool :=
  foldl (λ acc1 sentence_1, foldl (combine_step K sentence_1) acc1 K) acc K.

(** Lines 239-261: steps (a)-(d) of one pass. *)
Definition resolve (self : t) : t * bool :=
  let '(new_mines, new_safes) := collect (knowledge self) in
  let st1 := mark_new_mines (elements new_mines) (self, false) in
  let '(self2, updated) := mark_new_safes (elements new_safes) st1 in
  (clear_empty self2, updated).

(** One iteration of the [while] loop: the state and the flag [updated]. *)
Definition pass (self : t) : t * bool :=
  let '(self3, updated) := resolve self in
  let '(new_sentences, updated') := combine (knowledge self3) ([], updated) in
  (set_knowledge (knowledge self3 ++ new_sentences) self3, updated').

(** [while updated: ...]; the first iteration always runs. *)
Fixpoint update_knowledge (fuel : nat) (self : t) : option t :=
  match fuel with
  | O => None
  | S fuel' =>
      let '(self', updated) := pass self in
      if updated then update_knowledge fuel' self' else Some self'
  end.

Definition add_knowledge (fuel : nat) (cell : Cell) (count : Z) (self : t) : option t :=
  update_knowledge fuel (add_sentence cell count self).

(** *** Move selection *)

(** The loop of lines 288-290 over the cells of [self.safes] in the order
    [order]: the first one not in [moves_made], if any. *)
Definition first_unplayed (order : list Cell) (self : t) : option Cell :=
  List.find (λ move, bool_decide (move ∉ moves_made self)) order.

(** Returns the move and the (untouched) agent. *)
Definition make_safe_move (self : t) : option Cell * t :=
  (first_unplayed (elements (safes self)) self, self).

(** [random.choice] draws index [rnd mod len]; [rnd] is the random source. *)
Definition make_random_move (rnd : nat) (self : t) : option Cell * t :=
  let all_cells : gset Cell :=
    list_to_set (product (range 0 (height self)) (range 0 (width self))) in
  let possible_moves := elements (all_cells ∖ moves_made self ∖ mines self) in
  (match possible_moves with
   | [] => None
   | _ => possible_moves !! (rnd `mod` length possible_moves)%nat
   end, self).

End MinesweeperAI.

Import MinesweeperAI.

(** ** class Minesweeper *)
Module Minesweeper.

(** The exceptions the class can raise: [random.randrange] on an empty
    range, and a list index out of range. *)
Inductive exn : Type := ValueError | IndexError.

Inductive result (A : Type) : Type :=
| Ok (a : A)
| Raise (e : exn).

Arguments Ok {A} a.
Arguments Raise {A} e.

Definition bind {A B : Type} (r : result A) (f : A → result B) : result B :=
  match r with
  | Ok a => f a
  | Raise e => Raise e
  end.

Record t : Type := mk {
  height : Z;
  width : Z;
  mines : gset Cell;
  board : list (list bool);
  mines_found : gset Cell
}.

(** [l[i]]: a negative index counts from the end; outside
    [-len(l) .. len(l) - 1] it is an [IndexError]. *)
Definition getitem {A : Type} (l : list A) (i : Z) : result A :=
  let k := if bool_decide (i < 0) then i + Z.of_nat (length l) else i in
  if bool_decide (0 ≤ k < Z.of_nat (length l)) then
    match l !! Z.to_nat k with
    | Some x => Ok x
    | None => Raise IndexError
    end
  else Raise IndexError.

(** [l[i] = x], with the same index rule. *)
Definition setitem {A : Type} (l : list A) (i : Z) (x : A) : result (list A) :=
  let k := if bool_decide (i < 0) then i + Z.of_nat (length l) else i in
  if bool_decide (0 ≤ k < Z.of_nat (length l)) then Ok (<[Z.to_nat k := x]> l)
  else Raise IndexError.

(** Lines 18-23: a row is built by appending [False] for each column, the
    board by appending a fresh row for each line. *)
Definition empty_row (width : Z) : list bool :=
  foldl (λ row _, row ++ [false]) [] (range 0 width).

Definition empty_board (height width : Z) : list (list bool) :=
  foldl (λ board _, board ++ [empty_row width]) [] (range 0 height).

(** [random.randrange(n)] on the raw draw [r]: a [ValueError] when the
    range is empty. *)
Definition randrange (n r : Z) : result Z :=
  if bool_decide (0 < n) then Ok (r `mod` n) else Raise ValueError.

(** Lines 29-31, for the drawn indices [i] and [j]. *)
Definition try_place (i j : Z) (self : t) : result t :=
  bind (getitem (board self) i) (λ row,
  bind (getitem row j) (λ cell,
    if negb cell then
      bind (setitem row j true) (λ row',
      bind (setitem (board self) i row') (λ board',
        Ok (mk (height self) (width self) ({[(i, j)]} ∪ mines self) board'
               (mines_found self))))
    else Ok self)).

(** Lines 26-31: the loop [while len(self.mines) != mines], one iteration
    for each pair of raw draws; [None] when the draws run out before the
    loop ends. *)
Fixpoint place (draws : list (Z * Z)) (mines_wanted : Z) (self : t)
    : option (result t) :=
  if bool_decide (Z.of_nat (size (mines self)) ≠ mines_wanted) then
    match draws with
    | [] => None
    | (r1, r2) :: draws' =>
        match randrange (height self) r1 with
        | Raise e => Some (Raise e)
        | Ok i =>
            match randrange (width self) r2 with
            | Raise e => Some (Raise e)
            | Ok j =>
                match try_place i j self with
                | Raise e => Some (Raise e)
                | Ok self' => place draws' mines_wanted self'
                end
            end
        end
    end
  else Some (Ok self).

(** [Minesweeper(height, width, mines)], with the raw random draws. *)
Definition init (draws : list (Z * Z)) (height width mines_wanted : Z)
    : option (result t) :=
  match place draws mines_wanted
          (mk height width ∅ (empty_board height width) ∅) with
  | Some (Ok self) =>
      Some (Ok (mk (Minesweeper.height self) (Minesweeper.width self)
                   (Minesweeper.mines self) (board self) ∅))
  | r => r
  end.

Definition is_mine (self : t) (cell : Cell) : result bool :=
  bind (getitem (board self) cell.1) (λ row, getitem row cell.2).

(** The body of the loops of [nearby_mines] (lines 70-76), on [count];
    [self.board[i][j]] is the expression [is_mine] evaluates. *)
Definition look (self : t) (cell : Cell) (acc : result Z) (ij : Cell) : result Z :=
  bind acc (λ count,
    if bool_decide (ij = cell) then Ok count
    else if bool_decide (0 ≤ ij.1 < height self) && bool_decide (0 ≤ ij.2 < width self)
    then bind (is_mine self ij) (λ mine, Ok (if mine then count + 1 else count))
    else Ok count).

Definition nearby_mines (self : t) (cell : Cell) : result Z :=
  foldl (look self cell) (Ok 0) (block cell).

Definition won (self : t) : bool :=
  bool_decide (mines_found self = mines self).

(** *** print: the characters written to the standard output *)

Definition newline : ascii := "010"%char.

(** ["--" * self.width + "-"] *)
Definition dashes (width : Z) : list ascii :=
  concat (replicate (Z.to_nat width) ["-"; "-"]%char) ++ ["-"%char].

(** Lines 44-47 for column [j] of line [i], on the output so far and the
    exception raised, if any; once one is raised nothing more is written. *)
Definition print_cell (self : t) (i : Z) (st : list ascii * option exn) (j : Z)
    : list ascii * option exn :=
  match st with
  | (out, None) =>
      match bind (getitem (board self) i) (λ row, getitem row j) with
      | Ok true => (out ++ ["|"; "X"]%char, None)
      | Ok false => (out ++ ["|"; " "]%char, None)
      | Raise e => (out, Some e)
      end
  | _ => st
  end.

(** Lines 42-48 for line [i]. *)
Definition print_row (self : t) (st : list ascii * option exn) (i : Z)
    : list ascii * option exn :=
  match st with
  | (out, None) =>
      match foldl (print_cell self i)
                  (out ++ dashes (width self) ++ [newline], None)
                  (range 0 (width self)) with
      | (out', None) => (out' ++ ["|"%char; newline], None)
      | st' => st'
      end
  | _ => st
  end.

Definition print (self : t) : list ascii * option exn :=
  match foldl (print_row self) ([], None) (range 0 (height self)) with
  | (out, None) => (out ++ dashes (width self) ++ [newline], None)
  | st => st
  end.

End Minesweeper.

(** * Specification vocabulary and auxiliary definitions *)

(** [rc] is one of the up-to-8 cells around [cell]. *)
Definition adjacent (cell rc : Cell) : Prop :=
  rc ≠ cell ∧ cell.1 - 1 ≤ rc.1 ≤ cell.1 + 1 ∧ cell.2 - 1 ≤ rc.2 ≤ cell.2 + 1.

(** [rc] lies on the agent's grid. *)
Definition on_board (ai : MinesweeperAI.t) (rc : Cell) : Prop :=
  0 ≤ rc.1 < height ai ∧ 0 ≤ rc.2 < width ai.

(** The three fact sets of [b] extend those of [a]. *)
Definition grows (a b : MinesweeperAI.t) : Prop :=
  moves_made a ⊆ moves_made b ∧ safes a ⊆ safes b ∧ mines a ⊆ mines b.

(** The disjointness invariant of the knowledge base. *)
Definition disjointness (ai : MinesweeperAI.t) : Prop :=
  safes ai ∩ mines ai = ∅ ∧
  Forall (λ s, Sentence.cells s ∩ (safes ai ∪ mines ai) = ∅) (knowledge ai).

#[local] Instance disjointness_dec ai : Decision (disjointness ai).
Proof. unfold disjointness. apply _. Defined.

#[local] Instance sentence_eq_dec : EqDecision Sentence.t.
Proof. solve_decision. Defined.

#[local] Instance agent_eq_dec : EqDecision MinesweeperAI.t.
Proof. solve_decision. Defined.

(** Closed, decidable facts are settled by evaluation. *)
Ltac by_evaluation :=
  match goal with
  | |- ?P => refine (@bool_decide_unpack P _ _); vm_compute; exact I
  end.

(** A sentence is true of the mine layout [M]. *)
Definition holds_in (M : gset Cell) (s : Sentence.t) : Prop :=
  Sentence.count s = Z.of_nat (size (Sentence.cells s ∩ M)).

(** Everything the agent believes is true of the mine layout [M]. *)
Definition truthful (M : gset Cell) (ai : MinesweeperAI.t) : Prop :=
  mines ai ⊆ M ∧ safes ai ∩ M = ∅ ∧ Forall (holds_in M) (knowledge ai).

(** Inference has converged on [ai]: a pass changes nothing and reports no
    change. *)
Definition converged (ai : MinesweeperAI.t) : Prop := pass ai = (ai, false).

#[local] Instance on_board_dec ai rc : Decision (on_board ai rc).
Proof. unfold on_board. apply _. Defined.

#[local] Instance adjacent_dec cell rc : Decision (adjacent cell rc).
Proof. unfold adjacent. apply _. Defined.

(** The in-bounds neighbours of [cell], as a set. *)
Definition board_neighbours (ai : MinesweeperAI.t) (cell : Cell) : gset Cell :=
  list_to_set (filter (λ rc, rc ≠ cell ∧ on_board ai rc) (block cell)).

(** A sentence after a run of [mark_mine] (respectively [mark_safe]) calls. *)
Definition marks_mine (D : list Cell) (s : Sentence.t) : Sentence.t :=
  foldl (λ s c, Sentence.mark_mine c s) s D.

Definition marks_safe (L : list Cell) (s : Sentence.t) : Sentence.t :=
  foldl (λ s c, Sentence.mark_safe c s) s L.

(** The candidate derived from the ordered pair [(A, B)]. *)
Definition candidate (A B : Sentence.t) : Sentence.t :=
  Sentence.init (Sentence.cells A ∖ Sentence.cells B)
                (Sentence.count A - Sentence.count B).

(** [S] is a candidate the pairwise step accepts from the list [K]. *)
Definition derivable (K : list Sentence.t) (S : Sentence.t) : Prop :=
  ∃ A B, A ∈ K ∧ B ∈ K ∧ Sentence.eqb A B = false ∧
         Sentence.cells B ⊆ Sentence.cells A ∧ Sentence.cells B ≠ ∅ ∧
         0 ≤ Sentence.count A - Sentence.count B ∧
         S = candidate A B ∧ Sentence.contains S K = false.

(** The agent of a 1x4 board after [add_knowledge((0,1), 1)]; the board's
    only mine is (0,0). *)
Definition after_first_reveal : MinesweeperAI.t :=
  mk 1 4 {[(0, 1)]} ∅ {[(0, 1)]} [Sentence.init {[(0, 0); (0, 2)]} 1].

(** A knowledge base that can never settle: two sentences over the same
    three cells with counts 1 and 2. *)
Definition contradictory : MinesweeperAI.t :=
  mk 1 3 ∅ ∅ ∅ [Sentence.init {[(0, 0); (0, 1); (0, 2)]} 1;
                 Sentence.init {[(0, 0); (0, 1); (0, 2)]} 2].

(** All cells mentioned by the sentences of [K]. *)
Definition universe (K : list Sentence.t) : gset Cell := ⋃ (Sentence.cells <$> K).

(** All subsets of the cells of a list. *)
Fixpoint subsets (l : list Cell) : list (gset Cell) :=
  match l with
  | [] => [∅]
  | x :: l => subsets l ++ ((λ X, {[x]} ∪ X) <$> subsets l)
  end.

(** The number of non-empty cell sets over the universe of [K] that no
    sentence of [K] has. *)
Definition missing (K : list Sentence.t) : nat :=
  length (filter (λ X, X ≠ ∅ ∧ X ∉ (Sentence.cells <$> K))
                 (subsets (elements (universe K)))).

(** Three sentences true of the layout with mines at (0,0) and (0,2); the
    last one forces (0,2) to be a mine. *)
Definition wide : Sentence.t := Sentence.init {[(0, 0); (0, 1); (0, 2); (0, 3)]} 2.

Definition narrow : Sentence.t := Sentence.init {[(0, 0); (0, 1)]} 1.

Definition marked_first : MinesweeperAI.t :=
  mk 1 5 ∅ ∅ ∅ [wide; narrow; Sentence.init {[(0, 2)]} 1].

(** The scenario [{A,B,C} = 1] and [{A,B} = 1]. *)
Definition two_sentences : MinesweeperAI.t :=
  mk 1 4 ∅ ∅ ∅ [Sentence.init {[(0, 0); (0, 1); (0, 2)]} 1;
                 Sentence.init {[(0, 0); (0, 1)]} 1].

(** A forced mine and two forced safes. *)
Definition forced : MinesweeperAI.t :=
  mk 1 4 ∅ ∅ ∅ [Sentence.init {[(0, 0)]} 1; Sentence.init {[(0, 2); (0, 3)]} 0].

(** One safe cell is still to be played. *)
Definition one_safe_left : MinesweeperAI.t :=
  mk 1 4 {[(0, 1)]} ∅ {[(0, 1); (0, 2)]} [].

(** The history sets of a sentence: the cells it lost are set apart from
    the ones it still has, and the agent knows each of them as it was
    recorded. *)
Definition recorded (ai : MinesweeperAI.t) (s : Sentence.t) : Prop :=
  Sentence.cells s ## Sentence.mine_cell s ∧
  Sentence.cells s ## Sentence.safe_cell s ∧
  Sentence.mine_cell s ## Sentence.safe_cell s ∧
  Sentence.mine_cell s ⊆ mines ai ∧ Sentence.safe_cell s ⊆ safes ai.

Definition history_ok (ai : MinesweeperAI.t) : Prop :=
  Forall (recorded ai) (knowledge ai).

(** Every cell the sentences mention lies on the agent's grid. *)
Definition cells_on_board (ai : MinesweeperAI.t) : Prop :=
  ∀ c, c ∈ universe (knowledge ai) → on_board ai c.

(** A game as the constructor leaves it: the board has [height] rows of
    [width] entries, every mine lies on the board, and the entry of a cell
    tells whether the cell is in [mines]. *)
Definition game_ok (g : Minesweeper.t) : Prop :=
  length (Minesweeper.board g) = Z.to_nat (Minesweeper.height g) ∧
  Forall (λ row, length row = Z.to_nat (Minesweeper.width g)) (Minesweeper.board g) ∧
  (∀ c, c ∈ Minesweeper.mines g →
        0 ≤ c.1 < Minesweeper.height g ∧ 0 ≤ c.2 < Minesweeper.width g) ∧
  (∀ i j, 0 ≤ i < Minesweeper.height g → 0 ≤ j < Minesweeper.width g →
          (Minesweeper.board g !! Z.to_nat i) ≫= (λ row, row !! Z.to_nat j)
          = Some (bool_decide ((i, j) ∈ Minesweeper.mines g))).

(** Python's index rule: a negative index counts from the end. *)
Definition wrap (n k : Z) : Z := if bool_decide (k < 0) then k + n else k.


(** A 2x3 game with mines at (0,1) and (1,1). *)
Definition small_game : Minesweeper.t :=
  Minesweeper.mk 2 3 {[(0, 1); (1, 1)]}
    [[false; true; false]; [false; true; false]] ∅.

(** The text of a board row as [print] writes it, and the row read back
    from such a text: every second character, from the second on. *)
Definition row_text (row : list bool) : list ascii :=
  concat ((λ b : bool, if b then ["|"; "X"]%char else ["|"; " "]%char) <$> row)
  ++ ["|"%char].

Fixpoint read_row (text : list ascii) : list bool :=
  match text with
  | _ :: c :: text' => bool_decide (c = "X"%char) :: read_row text'
  | _ => []
  end.

(** * Properties *)

(** ** Sentences *)

Lemma sentence_mark_mine_cells c s :
  Sentence.cells (Sentence.mark_mine c s) = Sentence.cells s ∖ {[c]}.
Proof. unfold Sentence.mark_mine. case_bool_decide; simpl; set_solver. Qed.

Lemma sentence_mark_safe_cells c s :
  Sentence.cells (Sentence.mark_safe c s) = Sentence.cells s ∖ {[c]}.
Proof. unfold Sentence.mark_safe. case_bool_decide; simpl; set_solver. Qed.

Lemma sentence_mark_mine_idem c s :
  Sentence.mark_mine c (Sentence.mark_mine c s) = Sentence.mark_mine c s.
Proof.
  unfold Sentence.mark_mine at 2 3. case_bool_decide as Hin.
  - unfold Sentence.mark_mine; simpl. rewrite bool_decide_false; [done | set_solver].
  - unfold Sentence.mark_mine. by rewrite bool_decide_false.
Qed.

Lemma sentence_mark_safe_idem c s :
  Sentence.mark_safe c (Sentence.mark_safe c s) = Sentence.mark_safe c s.
Proof.
  unfold Sentence.mark_safe at 2 3. case_bool_decide as Hin.
  - unfold Sentence.mark_safe; simpl. rewrite bool_decide_false; [done | set_solver].
  - unfold Sentence.mark_safe. by rewrite bool_decide_false.
Qed.

Lemma sentence_eqb_true a b :
  Sentence.eqb a b = true ↔
  Sentence.cells a = Sentence.cells b ∧ Sentence.count a = Sentence.count b.
Proof.
  unfold Sentence.eqb. rewrite andb_true_iff, !bool_decide_eq_true. done.
Qed.

Lemma sentence_contains_true s l :
  Sentence.contains s l = true ↔ ∃ x, x ∈ l ∧ Sentence.eqb s x = true.
Proof.
  unfold Sentence.contains. rewrite existsb_exists.
  split; intros (x & Hx & He); exists x; by rewrite ?list_elem_of_In in *.
Qed.

Lemma sentence_contains_app s l1 l2 :
  Sentence.contains s (l1 ++ l2) = Sentence.contains s l1 || Sentence.contains s l2.
Proof. apply existsb_app. Qed.

(** ** Marking *)

(** C7. Idempotence of the agent's marking operations: calling [mark_mine]
    (respectively [mark_safe]) twice on the same cell yields exactly the
    state of calling it once: the same [mines], [safes], [moves_made] and
    the same sentences, field by field. *)
Theorem mark_twice_is_mark_once (ai : MinesweeperAI.t) (cell : Cell) :
  mark_mine cell (mark_mine cell ai) = mark_mine cell ai ∧
  mark_safe cell (mark_safe cell ai) = mark_safe cell ai.
Proof.
  split.
  - unfold mark_mine; simpl. f_equal; [set_solver |].
    rewrite <- list_fmap_compose. apply list_fmap_ext; intros _ s _.
    apply sentence_mark_mine_idem.
  - unfold mark_safe; simpl. f_equal; [set_solver |].
    rewrite <- list_fmap_compose. apply list_fmap_ext; intros _ s _.
    apply sentence_mark_safe_idem.
Qed.

(** ** Move selection *)

(** Whatever the order in which the set [safes] is iterated. *)
Lemma first_unplayed_spec (order : list Cell) (ai : MinesweeperAI.t) :
  (∀ c, c ∈ order ↔ c ∈ safes ai) →
  match first_unplayed order ai with
  | Some c => c ∈ safes ai ∧ c ∉ moves_made ai
  | None => safes ai ∖ moves_made ai = ∅
  end.
Proof.
  intros Horder. unfold first_unplayed.
  destruct (find _ _) as [c|] eqn:Hfind.
  - apply find_some in Hfind as [Hin Hc].
    apply list_elem_of_In, Horder in Hin.
    by apply bool_decide_eq_true in Hc.
  - apply set_eq. intros c. split; [| set_solver].
    intros [Hs Hm]%elem_of_difference.
    pose proof (find_none _ _ Hfind c) as Hf.
    rewrite bool_decide_eq_false in Hf. exfalso. apply Hf; [| done].
    by apply list_elem_of_In, Horder.
Qed.

(** C8. [make_safe_move] leaves the agent untouched; it returns a cell of
    [safes] outside [moves_made] whenever [safes − moves_made] is not
    empty, and [None] when it is; and so does the loop for any other order
    of iteration over [safes]. *)
Theorem make_safe_move_spec (ai : MinesweeperAI.t) :
  (make_safe_move ai).2 = ai ∧
  (safes ai ∖ moves_made ai ≠ ∅ →
     ∃ c, (make_safe_move ai).1 = Some c ∧ c ∈ safes ai ∧ c ∉ moves_made ai) ∧
  (safes ai ∖ moves_made ai = ∅ → (make_safe_move ai).1 = None) ∧
  (∀ order, (∀ c, c ∈ order ↔ c ∈ safes ai) →
     (safes ai ∖ moves_made ai ≠ ∅ →
        ∃ c, first_unplayed order ai = Some c ∧ c ∈ safes ai ∧ c ∉ moves_made ai) ∧
     (safes ai ∖ moves_made ai = ∅ → first_unplayed order ai = None)).
Proof.
  assert (∀ order, (∀ c, c ∈ order ↔ c ∈ safes ai) →
     (safes ai ∖ moves_made ai ≠ ∅ →
        ∃ c, first_unplayed order ai = Some c ∧ c ∈ safes ai ∧ c ∉ moves_made ai) ∧
     (safes ai ∖ moves_made ai = ∅ → first_unplayed order ai = None)) as Hany.
  { intros order Horder. pose proof (first_unplayed_spec order ai Horder) as Hspec.
    destruct (first_unplayed order ai) as [c|].
    - split; [intros _; by exists c | intros Hempty; set_solver].
    - split; [by intros Hne | done]. }
  split; [done |].
  destruct (Hany (elements (safes ai))) as [Hsome Hnone].
  { intros c. apply elem_of_elements. }
  unfold make_safe_move; simpl. by split_and!.
Qed.

(** ** The neighbour scan of [add_knowledge] *)

Lemma in_bounds_on_board ai rc : in_bounds ai rc = true ↔ on_board ai rc.
Proof.
  unfold in_bounds, on_board. rewrite andb_true_iff, !bool_decide_eq_true. done.
Qed.

Lemma elem_of_range lo hi x : x ∈ range lo hi ↔ lo ≤ x < hi.
Proof. unfold range. rewrite elem_of_seqZ. lia. Qed.

Lemma elem_of_product rows cols rc :
  rc ∈ product rows cols ↔ rc.1 ∈ rows ∧ rc.2 ∈ cols.
Proof.
  unfold product. destruct rc as [r c]; simpl. rewrite list_elem_of_bind. split.
  - intros (r' & Hin & Hr). apply list_elem_of_bind in Hin as (c' & Hin & Hc).
    apply list_elem_of_singleton in Hin. by simplify_eq.
  - intros [Hr Hc]. exists r. split; [| done].
    apply list_elem_of_bind. exists c. split; [| done]. by apply list_elem_of_singleton.
Qed.

Lemma NoDup_product rows cols :
  NoDup rows → NoDup cols → NoDup (product rows cols).
Proof.
  intros Hr Hc. unfold product. apply NoDup_bind; [| | done].
  - intros r1 r2 rc _ _ H1 H2.
    apply list_elem_of_bind in H1 as (c1 & H1 & _), H2 as (c2 & H2 & _).
    apply list_elem_of_singleton in H1, H2. congruence.
  - intros r _. apply NoDup_bind; [| | done].
    + intros c1 c2 rc _ _ H1 H2. apply list_elem_of_singleton in H1, H2. congruence.
    + intros c _. apply NoDup_singleton.
Qed.

Lemma elem_of_block cell rc :
  rc ∈ block cell ↔
  cell.1 - 1 ≤ rc.1 ≤ cell.1 + 1 ∧ cell.2 - 1 ≤ rc.2 ≤ cell.2 + 1.
Proof. unfold block. rewrite elem_of_product, !elem_of_range. lia. Qed.

Lemma NoDup_block cell : NoDup (block cell).
Proof. apply NoDup_product; apply NoDup_seqZ. Qed.

Lemma length_block cell : length (block cell) = 9%nat.
Proof.
  unfold block, range.
  replace (cell.1 + 2 - (cell.1 - 1)) with 3 by lia.
  replace (cell.2 + 2 - (cell.2 - 1)) with 3 by lia.
  reflexivity.
Qed.

Lemma elem_of_board_neighbours ai cell rc :
  rc ∈ board_neighbours ai cell ↔ adjacent cell rc ∧ on_board ai rc.
Proof.
  unfold board_neighbours, adjacent.
  rewrite elem_of_list_to_set, list_elem_of_filter, elem_of_block. tauto.
Qed.

Lemma size_board_neighbours ai cell : (size (board_neighbours ai cell) ≤ 8)%nat.
Proof.
  unfold board_neighbours.
  rewrite size_list_to_set by apply list.NoDup_filter, NoDup_block.
  assert (length (filter (λ rc, rc ≠ cell ∧ on_board ai rc) (block cell))
          < length (block cell))%nat as Hlt.
  { apply (length_filter_lt _ _ cell); [| tauto]. apply elem_of_block. lia. }
  rewrite length_block in Hlt. lia.
Qed.

(** The loop computes a count and a set that depend on the visited list
    only through two filters. *)
Lemma foldl_visit ai cell L : ∀ k N,
  foldl (visit ai cell) (k, N) L =
  (k + Z.of_nat (length (filter
         (λ rc, (rc ≠ cell ∧ on_board ai rc) ∧ rc ∈ mines ai) L)),
   N ∪ list_to_set (filter
         (λ rc, (rc ≠ cell ∧ on_board ai rc) ∧ (rc ∉ mines ai) ∧ rc ∉ safes ai) L)).
Proof.
  induction L as [| rc L IH]; intros k N.
  - simpl. f_equal; [lia | set_solver].
  - simpl foldl. rewrite !filter_cons.
    destruct (bool_decide (rc = cell)) eqn:E1.
    { apply bool_decide_eq_true in E1.
      rewrite !decide_False by tauto. apply IH. }
    apply bool_decide_eq_false in E1.
    destruct (in_bounds ai rc) eqn:E2.
    2:{ assert (¬ on_board ai rc) by (rewrite <- in_bounds_on_board; congruence).
        rewrite !decide_False by tauto. apply IH. }
    apply in_bounds_on_board in E2.
    destruct (bool_decide (rc ∈ mines ai)) eqn:E3.
    { apply bool_decide_eq_true in E3.
      rewrite decide_True by tauto. rewrite decide_False by tauto.
      rewrite IH. simpl length. f_equal. lia. }
    apply bool_decide_eq_false in E3.
    destruct (bool_decide (rc ∉ safes ai)) eqn:E4.
    { apply bool_decide_eq_true in E4.
      rewrite decide_False by tauto. rewrite decide_True by tauto.
      rewrite IH. f_equal. set_solver. }
    apply bool_decide_eq_false in E4.
    rewrite !decide_False by tauto. apply IH.
Qed.

Lemma scan_spec ai cell :
  scan ai cell =
  (Z.of_nat (size (board_neighbours ai cell ∩ mines ai)),
   board_neighbours ai cell ∖ mines ai ∖ safes ai).
Proof.
  unfold scan. rewrite foldl_visit. f_equal.
  - rewrite Z.add_0_l. f_equal.
    rewrite <- (size_list_to_set (C:=gset Cell)) by apply list.NoDup_filter, NoDup_block.
    f_equal. apply set_eq; intros rc.
    rewrite elem_of_list_to_set, list_elem_of_filter, elem_of_intersection.
    unfold board_neighbours. rewrite elem_of_list_to_set, list_elem_of_filter. tauto.
  - apply set_eq; intros rc.
    rewrite elem_of_union, elem_of_list_to_set, list_elem_of_filter.
    rewrite !elem_of_difference. unfold board_neighbours.
    rewrite elem_of_list_to_set, list_elem_of_filter. set_solver.
Qed.

Lemma gather_fresh cell count ai :
  cell ∉ moves_made ai →
  (gather cell count ai).2 =
  (board_neighbours ai cell ∖ mines ai ∖ safes ai,
   count - Z.of_nat (size (board_neighbours ai cell ∩ mines ai))).
Proof.
  intros Hfresh. unfold gather. rewrite bool_decide_true by done.
  rewrite scan_spec. simpl. f_equal.
  change (board_neighbours (mk _ _ _ _ _ _) cell) with (board_neighbours ai cell).
  apply set_eq; intros rc. rewrite !elem_of_difference, elem_of_union, elem_of_singleton.
  rewrite elem_of_board_neighbours. unfold adjacent. tauto.
Qed.

Lemma gather_played cell count ai :
  cell ∈ moves_made ai → gather cell count ai = (ai, (∅, count - 0)).
Proof. intros Hin. unfold gather. rewrite bool_decide_false; [done | tauto]. Qed.

Lemma new_sentence_fresh cell count ai :
  cell ∉ moves_made ai →
  new_sentence cell count ai =
  Sentence.init (board_neighbours ai cell ∖ mines ai ∖ safes ai)
    (count - Z.of_nat (size (board_neighbours ai cell ∩ mines ai))).
Proof.
  intros Hfresh. unfold new_sentence.
  pose proof (gather_fresh cell count ai Hfresh) as Hg.
  destruct (gather cell count ai) as [ai1 [nb adj]]. simpl in Hg. by injection Hg as -> ->.
Qed.

Lemma gather_knowledge cell count ai :
  knowledge (gather cell count ai).1 = knowledge ai.
Proof. unfold gather. case_bool_decide; [by destruct (scan _ _) | done]. Qed.

Lemma add_sentence_knowledge cell count ai :
  knowledge (add_sentence cell count ai) =
  if bool_decide (Sentence.cells (new_sentence cell count ai) ≠ ∅)
  then knowledge ai ++ [new_sentence cell count ai]
  else knowledge ai.
Proof.
  unfold add_sentence, new_sentence.
  pose proof (gather_knowledge cell count ai) as Hk.
  destruct (gather cell count ai) as [ai1 [nb adj]]. simpl in *.
  case_bool_decide; simpl; by rewrite Hk.
Qed.

(** C5. For a cell not yet played, the Sentence built by [add_knowledge]
    ranges over exactly the in-bounds neighbours of the cell (at most 8, the
    cell itself excluded) that are in neither [mines] nor [safes]; its count
    is [count] minus the number of in-bounds neighbours in [mines]; and it
    is appended to [knowledge] if and only if its cell set is not empty. *)
Theorem add_knowledge_sentence (ai : MinesweeperAI.t) (cell : Cell) (count : Z) :
  cell ∉ moves_made ai →
  let S := new_sentence cell count ai in
  ∃ N : gset Cell,
    (∀ rc, rc ∈ N ↔ adjacent cell rc ∧ on_board ai rc) ∧
    (size N ≤ 8)%nat ∧
    Sentence.cells S = N ∖ mines ai ∖ safes ai ∧
    Sentence.count S = count - Z.of_nat (size (N ∩ mines ai)) ∧
    (Sentence.cells S ≠ ∅ →
       knowledge (add_sentence cell count ai) = knowledge ai ++ [S]) ∧
    (Sentence.cells S = ∅ →
       knowledge (add_sentence cell count ai) = knowledge ai) ∧
    (∀ fuel, add_knowledge fuel cell count ai
             = update_knowledge fuel (add_sentence cell count ai)).
Proof.
  intros Hfresh S. exists (board_neighbours ai cell).
  pose proof (new_sentence_fresh cell count ai Hfresh) as HS.
  pose proof (add_sentence_knowledge cell count ai) as HK.
  fold S in HS, HK. rewrite HK. split_and!.
  - apply elem_of_board_neighbours.
  - apply size_board_neighbours.
  - by rewrite HS.
  - by rewrite HS.
  - intros Hne. by rewrite bool_decide_true.
  - intros He. rewrite bool_decide_false; [done | tauto].
  - done.
Qed.

(** C9. Every cell of the Sentence built by [add_knowledge] is within the
    grid: [0 ≤ row < height] and [0 ≤ col < width]. *)
Theorem add_knowledge_cells_in_bounds
    (ai : MinesweeperAI.t) (cell : Cell) (count : Z) (rc : Cell) :
  rc ∈ Sentence.cells (new_sentence cell count ai) →
  0 ≤ rc.1 < height ai ∧ 0 ≤ rc.2 < width ai.
Proof.
  unfold new_sentence. destruct (decide (cell ∈ moves_made ai)) as [Hin | Hfresh].
  - rewrite gather_played by done. simpl. set_solver.
  - pose proof (gather_fresh cell count ai Hfresh) as Hg.
    destruct (gather cell count ai) as [ai1 [nb adj]]. simpl in Hg.
    injection Hg as -> ->. simpl. rewrite !elem_of_difference.
    intros [[Hn _] _]. by apply elem_of_board_neighbours in Hn as [_ Hb].
Qed.

(** ** One pass of the inference loop *)

Lemma marks_mine_cells D : ∀ s,
  Sentence.cells (marks_mine D s) = Sentence.cells s ∖ list_to_set D.
Proof.
  induction D as [| c D IH]; intros s.
  - simpl. set_solver.
  - change (marks_mine (c :: D) s) with (marks_mine D (Sentence.mark_mine c s)).
    rewrite IH, sentence_mark_mine_cells. set_solver.
Qed.

Lemma marks_safe_cells L : ∀ s,
  Sentence.cells (marks_safe L s) = Sentence.cells s ∖ list_to_set L.
Proof.
  induction L as [| c L IH]; intros s.
  - simpl. set_solver.
  - change (marks_safe (c :: L) s) with (marks_safe L (Sentence.mark_safe c s)).
    rewrite IH, sentence_mark_safe_cells. set_solver.
Qed.

Lemma fmap_marks_nil (f : list Cell → Sentence.t → Sentence.t) (K : list Sentence.t) :
  (∀ s, f [] s = s) → f [] <$> K = K.
Proof.
  intros Hf. induction K as [| s K IH]; [done |].
  rewrite fmap_cons, Hf, IH. done.
Qed.

Lemma collect_acc K : ∀ A B,
  foldl (λ '(new_mines, new_safes) sentence,
           let mines := Sentence.known_mines sentence in
           let safes := Sentence.known_safes sentence in
           (if bool_decide (mines ≠ ∅) then new_mines ∪ mines else new_mines,
            if bool_decide (safes ≠ ∅) then new_safes ∪ safes else new_safes))
        (A, B) K
  = (A ∪ ⋃ (Sentence.known_mines <$> K), B ∪ ⋃ (Sentence.known_safes <$> K)).
Proof.
  induction K as [| s K IH]; intros A B; simpl.
  - f_equal; set_solver.
  - rewrite IH. f_equal; case_bool_decide; set_solver.
Qed.

Lemma collect_spec K :
  collect K = (⋃ (Sentence.known_mines <$> K), ⋃ (Sentence.known_safes <$> K)).
Proof. unfold collect. rewrite collect_acc. f_equal; set_solver. Qed.

Lemma elem_of_new_mines K c :
  c ∈ (collect K).1 ↔
  ∃ s, s ∈ K ∧ Sentence.count s = Z.of_nat (size (Sentence.cells s)) ∧ c ∈ Sentence.cells s.
Proof.
  rewrite collect_spec; simpl. rewrite elem_of_union_list. split.
  - intros (X & HX & Hc). apply list_elem_of_fmap in HX as (s & -> & Hs).
    exists s. unfold Sentence.known_mines in Hc.
    case_bool_decide; [done | set_solver].
  - intros (s & Hs & Hcnt & Hc). exists (Sentence.known_mines s). split.
    + apply list_elem_of_fmap. by exists s.
    + unfold Sentence.known_mines. by rewrite bool_decide_true.
Qed.

Lemma elem_of_new_safes K c :
  c ∈ (collect K).2 ↔
  ∃ s, s ∈ K ∧ Sentence.count s = 0 ∧ c ∈ Sentence.cells s.
Proof.
  rewrite collect_spec; simpl. rewrite elem_of_union_list. split.
  - intros (X & HX & Hc). apply list_elem_of_fmap in HX as (s & -> & Hs).
    exists s. unfold Sentence.known_safes in Hc.
    case_bool_decide; [done | set_solver].
  - intros (s & Hs & Hcnt & Hc). exists (Sentence.known_safes s). split.
    + apply list_elem_of_fmap. by exists s.
    + unfold Sentence.known_safes. by rewrite bool_decide_true.
Qed.

(** The mines loop marks exactly the cells [D] of [new_mines] that were not
    already in [mines]. *)
Lemma mark_new_mines_spec L : ∀ ai u, ∃ D,
  (∀ c, c ∈ D ↔ c ∈ L ∧ c ∉ mines ai) ∧
  mark_new_mines L (ai, u) =
  (mk (height ai) (width ai) (moves_made ai) (mines ai ∪ list_to_set D) (safes ai)
      (marks_mine D <$> knowledge ai),
   u || bool_decide (D ≠ [])).
Proof.
  induction L as [| c L IH]; intros ai u.
  - exists []. split.
    { intros c. rewrite elem_of_nil. tauto. }
    simpl. destruct ai; simpl. f_equal.
    + f_equal; [set_solver | by rewrite fmap_marks_nil by done].
    + by rewrite orb_false_r.
  - unfold mark_new_mines. simpl foldl. case_bool_decide as Hc.
    + destruct (IH (mark_mine c ai) true) as (D & HD & Heq).
      exists (c :: D). split.
      * intros x. rewrite !elem_of_cons, HD. simpl.
        rewrite not_elem_of_union, not_elem_of_singleton.
        destruct (decide (x = c)) as [-> | Hne]; tauto.
      * unfold mark_new_mines in Heq. rewrite Heq. simpl. f_equal.
        -- f_equal; [| by rewrite <- list_fmap_compose].
           rewrite ?list_to_set_cons. set_solver.
        -- by rewrite orb_true_r.
    + destruct (IH ai u) as (D & HD & Heq). exists D. split; [| done].
      intros x. rewrite elem_of_cons, HD.
      destruct (decide (x = c)) as [-> | Hne]; tauto.
Qed.

Lemma mark_new_safes_spec L : ∀ ai u,
  mark_new_safes L (ai, u) =
  (mk (height ai) (width ai) (moves_made ai) (mines ai) (safes ai ∪ list_to_set L)
      (marks_safe L <$> knowledge ai),
   u || bool_decide (L ≠ [])).
Proof.
  induction L as [| c L IH]; intros ai u.
  - simpl. destruct ai; simpl. f_equal.
    + f_equal; [set_solver | by rewrite fmap_marks_nil by done].
    + by rewrite orb_false_r.
  - unfold mark_new_safes. simpl foldl. unfold mark_new_safes in IH. rewrite IH.
    simpl. f_equal.
    + f_equal; [| by rewrite <- list_fmap_compose].
      rewrite ?list_to_set_cons. set_solver.
    + by rewrite orb_true_r.
Qed.

(** Steps (a)-(d) in closed form. *)
Lemma resolve_spec ai :
  let K := knowledge ai in
  ∃ D,
    (∀ c, c ∈ D ↔ c ∈ (collect K).1 ∧ c ∉ mines ai) ∧
    resolve ai =
    (mk (height ai) (width ai) (moves_made ai)
        (mines ai ∪ list_to_set D) (safes ai ∪ (collect K).2)
        (filter (λ s, Sentence.cells s ≠ ∅)
           (marks_safe (elements (collect K).2) <$> (marks_mine D <$> K))),
     bool_decide (D ≠ []) || bool_decide (elements (collect K).2 ≠ [])).
Proof.
  intros K. unfold resolve. fold K. destruct (collect K) as [nm ns]. simpl.
  destruct (mark_new_mines_spec (elements nm) ai false) as (D & HD & ->).
  exists D. split.
  - intros c. rewrite HD, elem_of_elements. done.
  - rewrite mark_new_safes_spec. unfold clear_empty, set_knowledge. simpl.
    by rewrite list_to_set_elements_L.
Qed.

Lemma pass_resolve ai :
  pass ai =
  (set_knowledge
     (knowledge (resolve ai).1
      ++ (combine (knowledge (resolve ai).1) ([], (resolve ai).2)).1)
     (resolve ai).1,
   (combine (knowledge (resolve ai).1) ([], (resolve ai).2)).2).
Proof.
  unfold pass. destruct (resolve ai) as [ai3 u]; simpl.
  by destruct (combine (knowledge ai3) ([], u)).
Qed.

(** What a pass does to the three fact sets. *)
Lemma pass_facts ai :
  moves_made (pass ai).1 = moves_made ai ∧
  mines ai ⊆ mines (pass ai).1 ∧
  safes ai ⊆ safes (pass ai).1 ∧
  (collect (knowledge ai)).1 ⊆ mines (pass ai).1 ∧
  (collect (knowledge ai)).2 ⊆ safes (pass ai).1.
Proof.
  rewrite pass_resolve. destruct (resolve_spec ai) as (D & HD & ->). simpl.
  split_and!; [done | set_solver | set_solver | | set_solver].
  intros c Hc. apply elem_of_union.
  destruct (decide (c ∈ mines ai)) as [Hin | Hout]; [by left | right].
  apply elem_of_list_to_set, HD. done.
Qed.

Lemma grows_refl ai : grows ai ai.
Proof. by unfold grows. Qed.

Lemma grows_trans a b c : grows a b → grows b c → grows a c.
Proof. unfold grows. intros (? & ? & ?) (? & ? & ?). split_and!; by etrans. Qed.

Lemma pass_grows ai : grows ai (pass ai).1.
Proof.
  destruct (pass_facts ai) as (Hm & Hmi & Hs & _). unfold grows.
  rewrite Hm. done.
Qed.

Lemma update_knowledge_grows fuel : ∀ ai ai',
  update_knowledge fuel ai = Some ai' → grows ai ai'.
Proof.
  induction fuel as [| fuel IH]; intros ai ai'; simpl; [done |].
  pose proof (pass_grows ai) as Hg. destruct (pass ai) as [ai1 [|]]; simpl in Hg.
  - intros H. eapply grows_trans; [done | by apply IH].
  - intros [= <-]. done.
Qed.

(** The result of the loop extends the state after its first pass. *)
Lemma update_knowledge_first_pass fuel ai ai' :
  update_knowledge fuel ai = Some ai' → grows (pass ai).1 ai'.
Proof.
  destruct fuel as [| fuel]; simpl; [done |].
  destruct (pass ai) as [ai1 [|]]; simpl.
  - apply update_knowledge_grows.
  - intros [= <-]. apply grows_refl.
Qed.

(** The loop returns the state of a pass that reported no change. *)
Lemma update_knowledge_last_pass fuel : ∀ ai ai',
  update_knowledge fuel ai = Some ai' → ∃ last, pass last = (ai', false).
Proof.
  induction fuel as [| fuel IH]; intros ai ai'; simpl; [done |].
  destruct (pass ai) as [ai1 [|]] eqn:Hp.
  - apply IH.
  - intros [= <-]. by exists ai.
Qed.

Lemma add_sentence_grows cell count ai : grows ai (add_sentence cell count ai).
Proof.
  unfold add_sentence, gather. case_bool_decide.
  - destruct (scan _ _) as [k nb]. unfold grows.
    case_bool_decide; simpl; set_solver.
  - rewrite bool_decide_false by tauto. apply grows_refl.
Qed.

(** C10. The sets [moves_made], [safes] and [mines] only grow: each of
    them before a call of [mark_mine], [mark_safe], [add_knowledge] (and
    the [update_knowledge] it runs), [make_safe_move] or
    [make_random_move] is a subset of the same set after the call. *)
Theorem fact_sets_grow (ai : MinesweeperAI.t) :
  (∀ cell, grows ai (mark_mine cell ai)) ∧
  (∀ cell, grows ai (mark_safe cell ai)) ∧
  (∀ fuel ai', update_knowledge fuel ai = Some ai' → grows ai ai') ∧
  (∀ fuel cell count ai',
     add_knowledge fuel cell count ai = Some ai' → grows ai ai') ∧
  grows ai (make_safe_move ai).2 ∧
  (∀ rnd, grows ai (make_random_move rnd ai).2).
Proof.
  split_and!.
  - intros cell. unfold grows, mark_mine; simpl. set_solver.
  - intros cell. unfold grows, mark_safe; simpl. set_solver.
  - intros fuel ai'. apply update_knowledge_grows.
  - intros fuel cell count ai' H. unfold add_knowledge in H.
    eapply grows_trans; [apply add_sentence_grows |].
    by eapply update_knowledge_grows.
  - apply grows_refl.
  - intros rnd. apply grows_refl.
Qed.

(** ** The all-mines and all-safe laws *)

(** C3. [known_mines] is the whole cell set when the count equals the
    number of cells and empty otherwise; [known_safes] is the whole cell
    set when the count is zero and empty otherwise.  If the knowledge base
    holds, when the fixed point starts, a Sentence whose count equals the
    number of its cells, then once the fixed point has converged all its
    cells are in [mines]; all cells of a Sentence whose count is zero are in
    [safes]. *)
Theorem all_mines_all_safe_laws
    (fuel : nat) (ai ai' : MinesweeperAI.t) (s : Sentence.t) :
  update_knowledge fuel ai = Some ai' →
  s ∈ knowledge ai →
  (Sentence.known_mines s =
     if decide (Sentence.count s = Z.of_nat (size (Sentence.cells s)))
     then Sentence.cells s else ∅) ∧
  (Sentence.known_safes s =
     if decide (Sentence.count s = 0) then Sentence.cells s else ∅) ∧
  (Sentence.count s = Z.of_nat (size (Sentence.cells s)) →
     Sentence.cells s ⊆ mines ai') ∧
  (Sentence.count s = 0 → Sentence.cells s ⊆ safes ai').
Proof.
  intros Hrun Hs.
  apply update_knowledge_first_pass in Hrun as (_ & Hsafes & Hmines).
  destruct (pass_facts ai) as (_ & _ & _ & Hnm & Hns).
  split_and!.
  - unfold Sentence.known_mines. by rewrite <- decide_bool_decide.
  - unfold Sentence.known_safes. by rewrite <- decide_bool_decide.
  - intros Hcnt c Hc. apply Hmines, Hnm, elem_of_new_mines. by exists s.
  - intros Hcnt c Hc. apply Hsafes, Hns, elem_of_new_safes. by exists s.
Qed.

(** ** Pairwise subset inference *)

Lemma foldl_invariant {A B} (P : A → Prop) (f : A → B → A) (l : list B) :
  (∀ a x, x ∈ l → P a → P (f a x)) → ∀ a, P a → P (foldl f a l).
Proof.
  induction l as [| x l IH]; intros Hstep a Ha; simpl; [done |].
  apply IH.
  - intros a' y Hy. apply Hstep. by apply list_elem_of_further.
  - apply Hstep; [apply list_elem_of_here | done].
Qed.

(** The two outcomes of the inner loop body. *)
Lemma combine_step_cases K A l u B :
  combine_step K A (l, u) B = (l, u) ∨
  (Sentence.eqb A B = false ∧
   Sentence.cells B ⊆ Sentence.cells A ∧ Sentence.cells B ≠ ∅ ∧
   0 ≤ Sentence.count A - Sentence.count B ∧
   Sentence.contains (candidate A B) K = false ∧
   Sentence.contains (candidate A B) l = false ∧
   combine_step K A (l, u) B = (l ++ [candidate A B], true)).
Proof.
  unfold combine_step. fold (candidate A B).
  destruct (Sentence.eqb A B); simpl; [by left |].
  case_bool_decide as Hsub; simpl; [| by left].
  case_bool_decide as Hne; simpl; [| by left].
  case_bool_decide as Hcnt; [| by left].
  destruct (Sentence.contains (candidate A B) K); simpl; [by left |].
  destruct (Sentence.contains (candidate A B) l); simpl; [by left |].
  by right.
Qed.

Lemma combine_invariant (P : list Sentence.t * bool → Prop) K :
  (∀ A B acc, A ∈ K → B ∈ K → P acc → P (combine_step K A acc B)) →
  ∀ acc, P acc → P (combine K acc).
Proof.
  intros Hstep. unfold combine. apply foldl_invariant.
  intros acc A HA. apply foldl_invariant. intros acc' B HB. by apply Hstep.
Qed.

(** Every sentence the step adds is an accepted candidate, and the flag is
    raised exactly when something was added. *)
Lemma combine_new K u :
  Forall (derivable K) (combine K ([], u)).1 ∧
  (combine K ([], u)).2 = u || bool_decide ((combine K ([], u)).1 ≠ []).
Proof.
  set (P := λ acc : list Sentence.t * bool,
              Forall (derivable K) acc.1 ∧ acc.2 = u || bool_decide (acc.1 ≠ [])).
  enough (P (combine K ([], u))) as HP by exact HP.
  apply combine_invariant; unfold P.
  - intros A B [l v] HA HB [Hl Hv]. simpl in Hl, Hv.
    destruct (combine_step_cases K A l v B)
      as [-> | (He & Hsub & Hne & Hcnt & HK & _ & ->)]; simpl; [done |].
    split.
    + apply Forall_app. split; [done |]. apply Forall_singleton.
      by exists A, B.
    + rewrite bool_decide_true; [by rewrite orb_true_r | by destruct l].
  - simpl. split; [constructor | by rewrite orb_false_r].
Qed.

Lemma combine_step_keeps K A B acc S :
  Sentence.contains S acc.1 = true →
  Sentence.contains S (combine_step K A acc B).1 = true.
Proof.
  destruct acc as [l u]. intros Hin. simpl in Hin.
  destruct (combine_step_cases K A l u B) as [-> | (_ & _ & _ & _ & _ & _ & ->)];
    simpl; [done |].
  by rewrite sentence_contains_app, Hin.
Qed.

Lemma combine_step_hit K A B acc :
  Sentence.eqb A B = false →
  Sentence.cells B ⊆ Sentence.cells A → Sentence.cells B ≠ ∅ →
  0 ≤ Sentence.count A - Sentence.count B →
  Sentence.contains (candidate A B) K = false →
  Sentence.contains (candidate A B) (combine_step K A acc B).1 = true.
Proof.
  intros He Hsub Hne Hcnt HK. destruct acc as [l u].
  unfold combine_step. fold (candidate A B).
  rewrite He, !bool_decide_true, HK by done. simpl.
  destruct (Sentence.contains (candidate A B) l) eqn:Hl; simpl; [done |].
  rewrite sentence_contains_app. apply orb_true_iff. right. simpl.
  rewrite orb_false_r. apply sentence_eqb_true. done.
Qed.

(** Every acceptable candidate that is not in [K] already is among the
    sentences derived in this pass. *)
Lemma combine_complete K acc A B :
  A ∈ K → B ∈ K →
  Sentence.eqb A B = false →
  Sentence.cells B ⊆ Sentence.cells A → Sentence.cells B ≠ ∅ →
  0 ≤ Sentence.count A - Sentence.count B →
  Sentence.contains (candidate A B) K = false →
  Sentence.contains (candidate A B) (combine K acc).1 = true.
Proof.
  intros HA HB He Hsub Hne Hcnt HK.
  set (Q := λ a : list Sentence.t * bool,
              Sentence.contains (candidate A B) a.1 = true).
  assert (∀ s1 L a, Q a → Q (foldl (combine_step K s1) a L)) as Hinner_keep.
  { intros s1 L. apply (foldl_invariant Q). intros a s2 _.
    apply combine_step_keeps. }
  assert (∀ L a, B ∈ L → Q (foldl (combine_step K A) a L)) as Hinner.
  { induction L as [| x L IH]; intros a HL; [by apply elem_of_nil in HL |].
    simpl. apply elem_of_cons in HL as [<- | HL].
    - apply Hinner_keep. by apply combine_step_hit.
    - by apply IH. }
  unfold combine.
  assert (∀ L a, A ∈ L →
            Q (foldl (λ acc1 s1, foldl (combine_step K s1) acc1 K) a L)) as Houter.
  { induction L as [| x L IH]; intros a HL; [by apply elem_of_nil in HL |].
    simpl. apply elem_of_cons in HL as [<- | HL].
    - apply (foldl_invariant Q); [| by apply Hinner].
      intros a' s1 _. apply Hinner_keep.
    - by apply IH. }
  by apply Houter.
Qed.

(** C2, as stated, fails for sentences taken before the pass: in
    [marked_first] the sentences [wide] and [narrow] are unequal, [narrow]
    is a non-empty subset of [wide], the difference
    [{(0,2), (0,3)} = 1] has a count [≥ 0] and equals no sentence of the
    knowledge base; but the pass first marks (0,2) a mine, which rewrites
    [wide] to [{(0,0), (0,1), (0,3)} = 1], and then derives [{(0,3)} = 0]:
    no sentence [{(0,2), (0,3)} = 1] is in the knowledge after the pass. *)
Lemma subset_count_law_before_marking :
  wide ∈ knowledge marked_first ∧ narrow ∈ knowledge marked_first ∧
  Sentence.eqb wide narrow = false ∧
  Sentence.cells narrow ≠ ∅ ∧ Sentence.cells narrow ⊆ Sentence.cells wide ∧
  0 ≤ Sentence.count wide - Sentence.count narrow ∧
  Sentence.contains (candidate wide narrow) (knowledge marked_first) = false ∧
  Sentence.contains (candidate wide narrow) (knowledge (pass marked_first).1) = false ∧
  (λ s, (Sentence.cells s, Sentence.count s)) <$> knowledge (pass marked_first).1
  = [({[(0, 0); (0, 1); (0, 3)]}, 1); ({[(0, 0); (0, 1)]}, 1); ({[(0, 3)]}, 0)].
Proof.
  split_and!; try by_evaluation; by vm_compute.
Qed.

(** C2, amended.  Subset-count law.  Let [K] be the sentences the pairwise
    step of a pass works on: the knowledge after the marking steps of that
    pass and the removal of empty sentences.  The pass ends with [K]
    followed by the sentences derived in it.  For [A], [B] in [K], unequal
    as Sentences, with [B.cells] a non-empty subset of [A.cells]: when
    [A.count − B.count ≥ 0] a Sentence with cells [A.cells − B.cells] and
    that count is in the knowledge after the pass, and it is among the
    derived sentences when no equal Sentence was in [K]; every derived
    sentence has a count [≥ 0] and is equal to no sentence of [K], so a
    candidate of negative count is never inserted. *)
Theorem subset_count_law (ai : MinesweeperAI.t) (A B : Sentence.t) :
  let K := knowledge (resolve ai).1 in
  A ∈ K → B ∈ K →
  Sentence.eqb A B = false →
  Sentence.cells B ≠ ∅ → Sentence.cells B ⊆ Sentence.cells A →
  ∃ new,
    knowledge (pass ai).1 = K ++ new ∧
    (0 ≤ Sentence.count A - Sentence.count B →
       (∃ S, S ∈ knowledge (pass ai).1 ∧
             Sentence.cells S = Sentence.cells A ∖ Sentence.cells B ∧
             Sentence.count S = Sentence.count A - Sentence.count B) ∧
       (Sentence.contains (candidate A B) K = false →
          Sentence.contains (candidate A B) new = true)) ∧
    Forall (λ S, 0 ≤ Sentence.count S ∧ Sentence.contains S K = false) new ∧
    (Sentence.count A - Sentence.count B < 0 →
       Sentence.contains (candidate A B) new = false).
Proof.
  intros K HA HB He Hne Hsub.
  set (new := (combine K ([], (resolve ai).2)).1).
  assert (Forall (λ S, 0 ≤ Sentence.count S ∧ Sentence.contains S K = false) new)
    as Hnew.
  { destruct (combine_new K (resolve ai).2) as [Hd _]. fold new in Hd.
    eapply Forall_impl; [| exact Hd].
    intros S (A' & B' & _ & _ & _ & _ & _ & Hcnt & -> & HK). by split. }
  exists new. rewrite pass_resolve. simpl. fold K. fold new. split_and!.
  - done.
  - intros Hcnt.
    assert (Sentence.contains (candidate A B) K = false →
            Sentence.contains (candidate A B) new = true) as Hfresh.
    { intros HK. by apply combine_complete. }
    split; [| done].
    assert (Sentence.contains (candidate A B) (K ++ new) = true) as Hin.
    { rewrite sentence_contains_app.
      destruct (Sentence.contains (candidate A B) K); [done |]. by apply Hfresh. }
    apply sentence_contains_true in Hin as (S & HS & Heq).
    apply sentence_eqb_true in Heq as [Hc Hn]. simpl in Hc, Hn.
    exists S. by rewrite <- Hc, <- Hn.
  - done.
  - intros Hneg. destruct (Sentence.contains (candidate A B) new) eqn:Hin; [| done].
    apply sentence_contains_true in Hin as (S & HS & Heq).
    apply sentence_eqb_true in Heq as [_ Hn]. simpl in Hn.
    rewrite Forall_forall in Hnew.
    destruct (Hnew S) as [Hpos _]; [by apply list_elem_of_In | lia].
Qed.

(** ** Convergence *)

Lemma union_known_mines_clear K :
  ⋃ (Sentence.known_mines <$> filter (λ s, Sentence.cells s ≠ ∅) K)
  = ⋃ (Sentence.known_mines <$> K).
Proof.
  induction K as [| s K IH]; [done |].
  rewrite filter_cons. case_decide as Hs.
  - by rewrite !fmap_cons, !union_list_cons, IH.
  - rewrite fmap_cons, union_list_cons, IH.
    unfold Sentence.known_mines. case_bool_decide; set_solver.
Qed.

Lemma union_known_safes_clear K :
  ⋃ (Sentence.known_safes <$> filter (λ s, Sentence.cells s ≠ ∅) K)
  = ⋃ (Sentence.known_safes <$> K).
Proof.
  induction K as [| s K IH]; [done |].
  rewrite filter_cons. case_decide as Hs.
  - by rewrite !fmap_cons, !union_list_cons, IH.
  - rewrite fmap_cons, union_list_cons, IH.
    unfold Sentence.known_safes. case_bool_decide; set_solver.
Qed.

Lemma collect_clear K :
  collect (filter (λ s, Sentence.cells s ≠ ∅) K) = collect K.
Proof.
  rewrite !collect_spec. by rewrite union_known_mines_clear, union_known_safes_clear.
Qed.

Lemma filter_idem (K : list Sentence.t) :
  filter (λ s, Sentence.cells s ≠ ∅) (filter (λ s, Sentence.cells s ≠ ∅) K)
  = filter (λ s, Sentence.cells s ≠ ∅) K.
Proof.
  induction K as [| s K IH]; [done |].
  rewrite filter_cons. case_decide; [| done].
  rewrite filter_cons, decide_True by done. by rewrite IH.
Qed.

(** A pass that reports no change has marked nothing and derived nothing:
    it only dropped the empty sentences. *)
Lemma pass_quiet ai ai' :
  pass ai = (ai', false) →
  (collect (knowledge ai)).1 ⊆ mines ai ∧
  (collect (knowledge ai)).2 = ∅ ∧
  ai' = clear_empty ai ∧
  combine (knowledge (clear_empty ai)) ([], false) = ([], false).
Proof.
  rewrite pass_resolve. destruct (resolve_spec ai) as (D & HD & ->). simpl.
  intros [= Hst Hflag].
  match type of Hflag with
  | (combine ?K3 ([], ?u)).2 = false =>
      destruct (combine_new K3 u) as [_ Hu]; rewrite Hflag in Hu;
      destruct (combine K3 ([], u)) as [new v] eqn:Hcomb; simpl in *
  end.
  symmetry in Hu. apply orb_false_iff in Hu as [Hu Hnew].
  apply orb_false_iff in Hu as [HD0 Hns].
  apply bool_decide_eq_false in HD0, Hns, Hnew.
  apply dec_stable in HD0, Hns, Hnew. subst D new v.
  apply elements_empty_inv, leibniz_equiv in Hns.
  rewrite Hns in *. rewrite elements_empty in *. simpl in *.
  rewrite !fmap_marks_nil in * by done.
  assert (ai' = clear_empty ai) as ->.
  { subst ai'. unfold clear_empty, set_knowledge. rewrite app_nil_r.
    f_equal; set_solver. }
  split_and!; [| done | done | done].
  intros c Hc. destruct (decide (c ∈ mines ai)) as [| Hout]; [done |].
  exfalso. eapply elem_of_nil, HD. done.
Qed.

Lemma pass_converged ai ai' : pass ai = (ai', false) → converged ai'.
Proof.
  intros Hp. apply pass_quiet in Hp as (Hnm & Hns & -> & Hc).
  unfold converged. rewrite pass_resolve.
  destruct (resolve_spec (clear_empty ai)) as (D & HD & ->).
  assert (D = []) as ->.
  { apply elem_of_nil_inv. intros c Hc'. apply HD in Hc' as [Hin Hout].
    unfold clear_empty in Hin, Hout. simpl in Hin, Hout.
    rewrite collect_clear in Hin. by apply Hout, Hnm. }
  unfold clear_empty at 3 4 5 6 7 8 9. simpl knowledge.
  rewrite collect_clear, Hns, elements_empty. simpl.
  rewrite !fmap_marks_nil by done. rewrite filter_idem.
  unfold clear_empty in Hc. simpl in Hc. rewrite Hc. simpl.
  unfold clear_empty, set_knowledge. simpl. rewrite app_nil_r.
  f_equal. f_equal; set_solver.
Qed.

Lemma update_knowledge_converged fuel ai ai' :
  update_knowledge fuel ai = Some ai' → converged ai'.
Proof.
  intros H. apply update_knowledge_last_pass in H as [last Hl].
  by eapply pass_converged.
Qed.

Lemma update_knowledge_moves_made fuel : ∀ ai ai',
  update_knowledge fuel ai = Some ai' → moves_made ai' = moves_made ai.
Proof.
  induction fuel as [| fuel IH]; intros ai ai'; simpl; [done |].
  destruct (pass_facts ai) as (Hm & _). destruct (pass ai) as [ai1 [|]]; simpl in Hm.
  - intros H. apply IH in H. congruence.
  - intros [= <-]. done.
Qed.

(** ** Evidence for a cell that was already played *)

(** C6, as stated, fails: on the 1x4 board, after [add_knowledge((0,1), 1)]
    and [mark_mine((0,0))], the cell (0,1) is in [moves_made], yet
    [add_knowledge((0,1), 1)] runs the inference loop, which marks (0,2)
    safe and drops the sentence: [safes] and [knowledge] change. *)
Lemma add_knowledge_replay_changes_state :
  add_knowledge 1 (0, 1) 1 (init 1 4) = Some after_first_reveal ∧
  (0, 1) ∈ moves_made (mark_mine (0, 0) after_first_reveal) ∧
  ∃ ai', add_knowledge 2 (0, 1) 1 (mark_mine (0, 0) after_first_reveal) = Some ai' ∧
         safes ai' ≠ safes (mark_mine (0, 0) after_first_reveal) ∧
         knowledge ai' ≠ knowledge (mark_mine (0, 0) after_first_reveal).
Proof.
  split; [by vm_compute |]. split; [by_evaluation |].
  eexists. split; [vm_compute; reflexivity |]. split; by_evaluation.
Qed.

(** C6, amended.  For a cell already in [moves_made], [add_knowledge]
    records no evidence and only runs the inference loop: it returns what
    [update_knowledge] returns, [moves_made] is unchanged, and on a state
    on which inference has converged (every state returned by
    [update_knowledge], hence by [add_knowledge]) the call returns the
    state itself: [moves_made], [safes], [mines] and [knowledge] are all
    unchanged. *)
Theorem add_knowledge_played_cell
    (ai : MinesweeperAI.t) (cell : Cell) (count : Z) :
  cell ∈ moves_made ai →
  (∀ fuel, add_knowledge fuel cell count ai = update_knowledge fuel ai) ∧
  (∀ fuel ai', add_knowledge fuel cell count ai = Some ai' →
               moves_made ai' = moves_made ai) ∧
  (converged ai → ∀ fuel, add_knowledge (S fuel) cell count ai = Some ai) ∧
  (∀ fuel0 ai0, update_knowledge fuel0 ai0 = Some ai → converged ai).
Proof.
  intros Hplayed.
  assert (add_sentence cell count ai = ai) as Hsame.
  { unfold add_sentence. rewrite gather_played by done.
    by rewrite bool_decide_false by tauto. }
  unfold add_knowledge. rewrite Hsame. split_and!.
  - done.
  - intros fuel ai'. apply update_knowledge_moves_made.
  - intros Hconv fuel. simpl. by rewrite Hconv.
  - intros fuel0 ai0. apply update_knowledge_converged.
Qed.

(** ** The disjointness invariant *)

(** C1 fails on the code.  On a 1x4 board with its only mine at (0,0), the
    honest reveals [add_knowledge((0,1), 1)] and [add_knowledge((0,2), 0)]
    start from a state that satisfies the invariant and end in one that
    does not: (0,2) is in [safes] and still a cell of the sentence
    [{(0,0), (0,2)} = 1], because line 206 adds the played cell to [safes]
    without removing it from the sentences, as [mark_safe] would. *)
Theorem add_knowledge_breaks_disjointness :
  disjointness (init 1 4) ∧
  add_knowledge 1 (0, 1) 1 (init 1 4) = Some after_first_reveal ∧
  disjointness after_first_reveal ∧
  ∃ ai2, add_knowledge 2 (0, 2) 0 after_first_reveal = Some ai2 ∧
         (0, 2) ∈ safes ai2 ∧
         knowledge ai2 = [Sentence.init {[(0, 0); (0, 2)]} 1] ∧
         ¬ disjointness ai2.
Proof.
  split; [by_evaluation |]. split; [by vm_compute |]. split; [by_evaluation |].
  eexists. split; [vm_compute; reflexivity |].
  split; [by_evaluation |]. split; [by vm_compute | by_evaluation].
Qed.

(** ** Termination of the inference loop *)

Lemma update_knowledge_stuck ai :
  pass ai = (ai, true) → ∀ fuel, update_knowledge fuel ai = None.
Proof.
  intros Hp fuel. induction fuel as [| fuel IH]; simpl; [done |].
  by rewrite Hp.
Qed.

(** C4, as stated, fails: from [contradictory] every pass derives the
    empty sentence [{} = 1] anew (the next pass drops it before deriving),
    so every pass reports a change and no amount of fuel suffices. *)
Lemma update_knowledge_diverges :
  ¬ ∃ fuel ai', update_knowledge fuel contradictory = Some ai'.
Proof.
  intros (fuel & ai' & Hrun). destruct fuel as [| fuel]; [done |].
  simpl in Hrun.
  assert (pass contradictory = ((pass contradictory).1, true)) as Hp1
    by (vm_compute; reflexivity).
  assert (pass (pass contradictory).1 = ((pass contradictory).1, true)) as Hp2
    by (vm_compute; reflexivity).
  rewrite Hp1 in Hrun. by rewrite update_knowledge_stuck in Hrun.
Qed.

Lemma subsets_complete l : ∀ X : gset Cell, X ⊆ list_to_set l → X ∈ subsets l.
Proof.
  induction l as [| x l IH]; intros X HX; simpl in *.
  - apply list_elem_of_singleton. set_solver.
  - apply elem_of_app. destruct (decide (x ∈ X)) as [Hx | Hx].
    + right. apply list_elem_of_fmap. exists (X ∖ {[x]}). split.
      * apply set_eq. intros y. rewrite elem_of_union, elem_of_difference, elem_of_singleton.
        destruct (decide (y = x)) as [-> | Hne]; tauto.
      * apply IH. set_solver.
    + left. apply IH. set_solver.
Qed.

Lemma filter_length_lt {A} (P Q : A → Prop)
    `{∀ x, Decision (P x)} `{∀ x, Decision (Q x)} (l : list A) (x0 : A) :
  (∀ x, Q x → P x) → x0 ∈ l → P x0 → ¬ Q x0 →
  (length (filter Q l) < length (filter P l))%nat.
Proof.
  intros HQP Hin HP HQ.
  assert (∀ l', length (filter Q l') ≤ length (filter P l'))%nat as Hle.
  { induction l' as [| y l' IH]; [done |].
    rewrite !filter_cons. destruct (decide (Q y)) as [Hy | Hy].
    - rewrite decide_True by auto. simpl. lia.
    - destruct (decide (P y)); simpl; lia. }
  induction l as [| y l IH]; [by apply elem_of_nil in Hin |].
  rewrite !filter_cons. apply elem_of_cons in Hin as [<- | Hin].
  - rewrite decide_False, decide_True by done. simpl. specialize (Hle l). lia.
  - specialize (IH Hin). destruct (decide (Q y)) as [Hy | Hy].
    + rewrite decide_True by auto. simpl. lia.
    + destruct (decide (P y)); simpl; lia.
Qed.

(** *** Sentences that are true of a mine layout *)

Lemma holds_in_all_mines M s :
  holds_in M s → Sentence.count s = Z.of_nat (size (Sentence.cells s)) →
  Sentence.cells s ⊆ M.
Proof.
  unfold holds_in. intros Hh Hc.
  assert (Sentence.cells s ∩ M = Sentence.cells s) as Heq.
  { apply set_subseteq_size_eq; [set_solver | lia]. }
  set_solver.
Qed.

Lemma holds_in_all_safe M s :
  holds_in M s → Sentence.count s = 0 → Sentence.cells s ∩ M = ∅.
Proof.
  unfold holds_in. intros Hh Hc.
  apply leibniz_equiv, size_empty_iff. lia.
Qed.

Lemma holds_in_mark_mine M c s :
  c ∈ M → holds_in M s → holds_in M (Sentence.mark_mine c s).
Proof.
  unfold holds_in, Sentence.mark_mine. intros Hc Hh.
  case_bool_decide as Hin; [| done]. simpl.
  assert (Sentence.cells s ∩ M = {[c]} ∪ (Sentence.cells s ∖ {[c]}) ∩ M) as Heq.
  { apply set_eq. intros y.
    rewrite elem_of_union, !elem_of_intersection, elem_of_difference, elem_of_singleton.
    destruct (decide (y = c)) as [-> | Hne]; tauto. }
  rewrite Heq, size_union, size_singleton in Hh by set_solver. lia.
Qed.

Lemma holds_in_mark_safe M c s :
  c ∉ M → holds_in M s → holds_in M (Sentence.mark_safe c s).
Proof.
  unfold holds_in, Sentence.mark_safe. intros Hc Hh.
  case_bool_decide as Hin; [| done]. simpl.
  assert ((Sentence.cells s ∖ {[c]}) ∩ M = Sentence.cells s ∩ M) as -> by set_solver.
  done.
Qed.

Lemma holds_in_marks_mine M D : ∀ s,
  (∀ c, c ∈ D → c ∈ M) → holds_in M s → holds_in M (marks_mine D s).
Proof.
  induction D as [| c D IH]; intros s HD Hh; [done |].
  change (marks_mine (c :: D) s) with (marks_mine D (Sentence.mark_mine c s)).
  apply IH.
  - intros c' Hc'. apply HD. by apply list_elem_of_further.
  - apply holds_in_mark_mine; [| done]. apply HD, list_elem_of_here.
Qed.

Lemma holds_in_marks_safe M L : ∀ s,
  (∀ c, c ∈ L → c ∉ M) → holds_in M s → holds_in M (marks_safe L s).
Proof.
  induction L as [| c L IH]; intros s HL Hh; [done |].
  change (marks_safe (c :: L) s) with (marks_safe L (Sentence.mark_safe c s)).
  apply IH.
  - intros c' Hc'. apply HL. by apply list_elem_of_further.
  - apply holds_in_mark_safe; [| done]. apply HL, list_elem_of_here.
Qed.

Lemma elem_of_universe K c :
  c ∈ universe K ↔ ∃ s, s ∈ K ∧ c ∈ Sentence.cells s.
Proof.
  unfold universe. rewrite elem_of_union_list. split.
  - intros (X & HX & Hc). apply list_elem_of_fmap in HX as (s & -> & Hs). by exists s.
  - intros (s & Hs & Hc). exists (Sentence.cells s). split; [| done].
    apply list_elem_of_fmap. by exists s.
Qed.

(** A derived sentence is true of the layout, not empty, over known cells,
    and has a cell set no sentence of [K] has. *)
Lemma derivable_holds M K S :
  Forall (holds_in M) K → derivable K S →
  holds_in M S ∧ Sentence.cells S ≠ ∅ ∧
  Sentence.cells S ⊆ universe K ∧ Sentence.cells S ∉ (Sentence.cells <$> K).
Proof.
  intros HK (A & B & HA & HB & He & Hsub & Hne & Hcnt & -> & Hfresh).
  rewrite list.Forall_forall in HK.
  pose proof (HK A HA) as HhA. pose proof (HK B HB) as HhB.
  assert (holds_in M (candidate A B)) as Hh.
  { unfold holds_in in *. simpl. rewrite HhA, HhB.
    assert ((Sentence.cells A ∖ Sentence.cells B) ∩ M
            = (Sentence.cells A ∩ M) ∖ (Sentence.cells B ∩ M)) as -> by set_solver.
    rewrite (size_difference (Sentence.cells A ∩ M) (Sentence.cells B ∩ M))
      by set_solver.
    assert (size (Sentence.cells B ∩ M) ≤ size (Sentence.cells A ∩ M))%nat
      by (apply subseteq_size; set_solver).
    lia. }
  split_and!; [done | | |].
  - simpl. intros Hempty.
    assert (Sentence.cells A = Sentence.cells B) as Hcells.
    { apply set_eq. intros x. split; [| apply Hsub]. intros Hx.
      destruct (decide (x ∈ Sentence.cells B)) as [| Hout]; [done |].
      exfalso. eapply (not_elem_of_empty (C:=gset Cell) x). rewrite <- Hempty.
      by apply elem_of_difference. }
    assert (Sentence.eqb A B = true) as Heq; [| congruence].
    apply sentence_eqb_true. split; [done |].
    unfold holds_in in HhA, HhB. by rewrite HhA, HhB, Hcells.
  - simpl. intros c Hc. apply elem_of_universe. exists A. set_solver.
  - intros Hin. apply list_elem_of_fmap in Hin as (s & Hcs & Hs).
    assert (Sentence.contains (candidate A B) K = true) as Hc; [| congruence].
    apply sentence_contains_true. exists s. split; [done |].
    apply sentence_eqb_true. split; [done |].
    pose proof (HK s Hs) as Hhs. unfold holds_in in Hh, Hhs.
    by rewrite Hh, Hhs, Hcs.
Qed.

(** *** A pass on a consistent knowledge base *)

Lemma resolve_knowledge ai :
  let K := knowledge ai in
  ∃ D,
    (∀ c, c ∈ D ↔ c ∈ (collect K).1 ∧ c ∉ mines ai) ∧
    knowledge (resolve ai).1 =
      filter (λ s, Sentence.cells s ≠ ∅)
        (marks_safe (elements (collect K).2) <$> (marks_mine D <$> K)) ∧
    (resolve ai).2 = bool_decide (D ≠ []) || bool_decide (elements (collect K).2 ≠ []).
Proof.
  intros K. destruct (resolve_spec ai) as (D & HD & ->). by exists D.
Qed.

Lemma elem_of_resolved D L (K : list Sentence.t) s :
  s ∈ filter (λ s, Sentence.cells s ≠ ∅) (marks_safe L <$> (marks_mine D <$> K)) ↔
  Sentence.cells s ≠ ∅ ∧ ∃ s0, s0 ∈ K ∧ s = marks_safe L (marks_mine D s0).
Proof.
  rewrite list_elem_of_filter, list_elem_of_fmap. split.
  - intros (Hne & y & -> & Hy). apply list_elem_of_fmap in Hy as (s0 & -> & Hs0).
    split; [done |]. by exists s0.
  - intros (Hne & s0 & Hs0 & ->). split; [done |].
    exists (marks_mine D s0). split; [done |]. apply list_elem_of_fmap. by exists s0.
Qed.

Lemma resolve_consistent M ai :
  Forall (holds_in M) (knowledge ai) →
  Forall (holds_in M) (knowledge (resolve ai).1).
Proof.
  intros HK. destruct (resolve_knowledge ai) as (D & HD & -> & _).
  rewrite list.Forall_forall in HK. apply list.Forall_forall. intros s Hs.
  apply elem_of_resolved in Hs as (_ & s0 & Hs0 & ->).
  apply holds_in_marks_safe; [| apply holds_in_marks_mine; [| by apply HK]].
  - intros c Hc. apply elem_of_elements, elem_of_new_safes in Hc as (s & Hs & Hcnt & Hc).
    pose proof (holds_in_all_safe M s (HK s Hs) Hcnt). set_solver.
  - intros c Hc. apply HD in Hc as [Hc _].
    apply elem_of_new_mines in Hc as (s & Hs & Hcnt & Hc).
    by apply (holds_in_all_mines M s (HK s Hs) Hcnt).
Qed.

Lemma pass_knowledge ai :
  knowledge (pass ai).1 =
  knowledge (resolve ai).1
  ++ (combine (knowledge (resolve ai).1) ([], (resolve ai).2)).1.
Proof. by rewrite pass_resolve. Qed.

Lemma pass_consistent M ai :
  Forall (holds_in M) (knowledge ai) →
  Forall (holds_in M) (knowledge (pass ai).1).
Proof.
  intros HK. apply (resolve_consistent M) in HK as HK3.
  rewrite pass_knowledge. apply Forall_app. split; [done |].
  destruct (combine_new (knowledge (resolve ai).1) (resolve ai).2) as [Hd _].
  eapply Forall_impl; [| exact Hd].
  intros S HS. by apply (derivable_holds M _ S HK3).
Qed.

Lemma universe_app K1 K2 : universe (K1 ++ K2) = universe K1 ∪ universe K2.
Proof. unfold universe. by rewrite fmap_app, union_list_app_L. Qed.

Lemma resolve_universe ai :
  universe (knowledge (resolve ai).1) ⊆ universe (knowledge ai).
Proof.
  destruct (resolve_knowledge ai) as (D & _ & -> & _).
  intros c Hc. apply elem_of_universe in Hc as (s & Hs & Hc).
  apply elem_of_resolved in Hs as (_ & s0 & Hs0 & ->).
  rewrite marks_safe_cells, marks_mine_cells in Hc.
  apply elem_of_universe. exists s0. set_solver.
Qed.

Lemma pass_universe M ai :
  Forall (holds_in M) (knowledge ai) →
  universe (knowledge (pass ai).1) = universe (knowledge (resolve ai).1).
Proof.
  intros HK. apply (resolve_consistent M) in HK as HK3.
  rewrite pass_knowledge, universe_app.
  destruct (combine_new (knowledge (resolve ai).1) (resolve ai).2) as [Hd _].
  rewrite list.Forall_forall in Hd.
  apply set_eq. intros c. rewrite elem_of_union. split; [| by left].
  intros [Hc | Hc]; [done |].
  apply elem_of_universe in Hc as (S & HS & Hc).
  destruct (derivable_holds M _ S HK3 (Hd S HS)) as (_ & _ & Hsub & _).
  by apply Hsub.
Qed.

(** A pass that marks a cell removes it from every sentence. *)
Lemma resolve_shrinks ai :
  (resolve ai).2 = true →
  ∃ c, c ∈ universe (knowledge ai) ∧ c ∉ universe (knowledge (resolve ai).1).
Proof.
  destruct (resolve_knowledge ai) as (D & HD & -> & ->).
  intros Hflag. apply orb_true_iff in Hflag as [Hflag | Hflag];
    apply bool_decide_eq_true in Hflag.
  - destruct D as [| c D]; [done |]. exists c.
    assert (c ∈ c :: D) as Hc by apply list_elem_of_here.
    pose proof Hc as Hc'. apply HD in Hc' as [Hnm _].
    apply elem_of_new_mines in Hnm as (s & Hs & _ & Hcs).
    split; [apply elem_of_universe; by exists s |].
    intros Hin. apply elem_of_universe in Hin as (s' & Hs' & Hcs').
    apply elem_of_resolved in Hs' as (_ & s0 & _ & ->).
    rewrite marks_safe_cells, marks_mine_cells in Hcs'.
    apply elem_of_difference in Hcs' as [Hcs' _].
    apply elem_of_difference in Hcs' as [_ Hcs'].
    by apply Hcs', elem_of_list_to_set.
  - destruct (elements (collect (knowledge ai)).2) as [| c L] eqn:HL; [done |].
    exists c.
    assert (c ∈ (collect (knowledge ai)).2) as Hns.
    { apply elem_of_elements. rewrite HL. apply list_elem_of_here. }
    apply elem_of_new_safes in Hns as (s & Hs & _ & Hcs).
    split; [apply elem_of_universe; by exists s |].
    intros Hin. apply elem_of_universe in Hin as (s' & Hs' & Hcs').
    apply elem_of_resolved in Hs' as (_ & s0 & _ & ->).
    rewrite marks_safe_cells in Hcs'.
    apply elem_of_difference in Hcs' as [_ Hcs'].
    apply Hcs'. rewrite elem_of_list_to_set. apply list_elem_of_here.
Qed.

(** A pass that marks nothing only drops the empty sentences before the
    pairwise step. *)
Lemma resolve_idle ai :
  (resolve ai).2 = false →
  knowledge (resolve ai).1 = filter (λ s, Sentence.cells s ≠ ∅) (knowledge ai).
Proof.
  destruct (resolve_knowledge ai) as (D & HD & -> & ->).
  intros Hflag. apply orb_false_iff in Hflag as [HD0 HL].
  apply bool_decide_eq_false in HD0, HL. apply dec_stable in HD0, HL.
  rewrite HD0, HL. by rewrite !fmap_marks_nil.
Qed.

Lemma universe_clear K :
  universe (filter (λ s, Sentence.cells s ≠ ∅) K) = universe K.
Proof.
  apply set_eq. intros c. rewrite !elem_of_universe. split.
  - intros (s & Hs & Hc). apply list_elem_of_filter in Hs as [_ Hs]. by exists s.
  - intros (s & Hs & Hc). exists s. split; [| done].
    apply list_elem_of_filter. split; [set_solver | done].
Qed.

(** Every pass that reports a change makes progress: it removes a cell
    from the sentences, or keeps the cells and adds a cell set. *)
Lemma pass_progress M ai :
  Forall (holds_in M) (knowledge ai) →
  (pass ai).2 = true →
  (size (universe (knowledge (pass ai).1)) < size (universe (knowledge ai)))%nat ∨
  (universe (knowledge (pass ai).1) = universe (knowledge ai) ∧
   (missing (knowledge (pass ai).1) < missing (knowledge ai))%nat).
Proof.
  intros HK Hflag.
  pose proof (pass_universe M ai HK) as HU.
  pose proof (resolve_consistent M ai HK) as HK3.
  destruct ((resolve ai).2) eqn:Hres.
  - left. rewrite HU. apply subset_size.
    destruct (resolve_shrinks ai Hres) as (c & Hin & Hout).
    pose proof (resolve_universe ai). set_solver.
  - right. pose proof (resolve_idle ai Hres) as HK3eq.
    assert (universe (knowledge (pass ai).1) = universe (knowledge ai)) as HUeq.
    { by rewrite HU, HK3eq, universe_clear. }
    split; [done |]. unfold missing. rewrite HUeq.
    pose proof (pass_knowledge ai) as HK'. rewrite Hres in HK'.
    destruct (combine_new (knowledge (resolve ai).1) false) as [Hd Hu].
    assert ((pass ai).2 = (combine (knowledge (resolve ai).1) ([], false)).2) as Hpf.
    { rewrite pass_resolve. simpl. by rewrite Hres. }
    rewrite Hpf, Hu in Hflag. simpl in Hflag. apply bool_decide_eq_true in Hflag.
    destruct ((combine (knowledge (resolve ai).1) ([], false)).1) as [| S new];
      [done |].
    apply list.Forall_cons in Hd as [HS _].
    destruct (derivable_holds M _ S HK3 HS) as (_ & Hne & Hsub & Hfresh).
    assert (∀ X, X ≠ ∅ → X ∈ Sentence.cells <$> knowledge ai →
                 X ∈ Sentence.cells <$> knowledge (resolve ai).1) as Hkeep.
    { intros X HX Hin. apply list_elem_of_fmap in Hin as (s & -> & Hs).
      apply list_elem_of_fmap. exists s. split; [done |].
      rewrite HK3eq. by apply list_elem_of_filter. }
    apply (filter_length_lt _ _ _ (Sentence.cells S)).
    + intros X [HX Hout]. split; [done |]. intros Hin. apply Hout.
      rewrite HK', fmap_app. apply elem_of_app. left. by apply Hkeep.
    + apply subsets_complete. rewrite list_to_set_elements_L.
      rewrite HK3eq, universe_clear in Hsub. done.
    + split; [done |]. intros Hin. by apply Hfresh, Hkeep.
    + intros [_ Hout]. apply Hout. rewrite HK', fmap_app. apply elem_of_app. right.
      rewrite fmap_cons. apply list_elem_of_here.
Qed.

Lemma update_knowledge_more_fuel fuel : ∀ ai ai' fuel',
  update_knowledge fuel ai = Some ai' → (fuel ≤ fuel')%nat →
  update_knowledge fuel' ai = Some ai'.
Proof.
  induction fuel as [| fuel IH]; intros ai ai' fuel' Hrun Hle; [done |].
  destruct fuel' as [| fuel']; [lia |]. simpl in *.
  destruct (pass ai) as [ai1 [|]]; [| done].
  apply (IH _ _ _ Hrun). lia.
Qed.

Lemma update_knowledge_terminates_measure M : ∀ n m ai,
  size (universe (knowledge ai)) = n → missing (knowledge ai) = m →
  Forall (holds_in M) (knowledge ai) →
  ∃ fuel ai', update_knowledge fuel ai = Some ai'.
Proof.
  induction n as [n IHn] using lt_wf_ind.
  induction m as [m IHm] using lt_wf_ind.
  intros ai Hn Hm HK.
  pose proof (pass_progress M ai HK) as Hprog.
  pose proof (pass_consistent M ai HK) as HK'.
  destruct (pass ai) as [ai1 u] eqn:Hp. simpl in Hprog, HK'.
  destruct u.
  - assert (∃ fuel ai', update_knowledge fuel ai1 = Some ai') as (fuel & ai' & Hrun).
    { destruct (Hprog eq_refl) as [Hlt | [Heq Hlt]].
      - eapply (IHn (size (universe (knowledge ai1)))); [lia | done | done | done].
      - eapply (IHm (missing (knowledge ai1))); [lia | | done | done].
        by rewrite Heq. }
    exists (S fuel), ai'. simpl. by rewrite Hp.
  - exists 1%nat, ai1. simpl. by rewrite Hp.
Qed.

(** C4, amended.  When the knowledge base is consistent, that is, some
    mine layout [M] gives every Sentence exactly [count] mines among its
    cells, the loop of [update_knowledge] terminates whatever [safes],
    [mines] and [moves_made] are: with enough fuel it returns a state, and
    that state is the result of a full pass that reported no change. *)
Theorem update_knowledge_terminates (M : gset Cell) (ai : MinesweeperAI.t) :
  Forall (holds_in M) (knowledge ai) →
  ∃ fuel ai',
    (∀ fuel', (fuel ≤ fuel')%nat → update_knowledge fuel' ai = Some ai') ∧
    ∃ last, pass last = (ai', false).
Proof.
  intros HK.
  destruct (update_knowledge_terminates_measure M _ _ ai eq_refl eq_refl HK)
    as (fuel & ai' & Hrun).
  exists fuel, ai'. split.
  - intros fuel' Hle. by apply (update_knowledge_more_fuel fuel).
  - by apply (update_knowledge_last_pass fuel ai).
Qed.

(** ** Instances on concrete boards *)

(** The scenario [{A,B,C} = 1], [{A,B} = 1]: the pass derives [{C} = 0]. *)
Lemma subset_count_law_witness :
  ∃ S, S ∈ knowledge (pass two_sentences).1 ∧
       Sentence.cells S = {[(0, 2)]} ∧ Sentence.count S = 0.
Proof.
  destruct (subset_count_law two_sentences
              (Sentence.init {[(0, 0); (0, 1); (0, 2)]} 1)
              (Sentence.init {[(0, 0); (0, 1)]} 1))
    as (new & _ & Hin & _); try by_evaluation.
  destruct Hin as [(S & HS & Hc & Hn) _]; [by_evaluation |].
  exists S. split; [done |]. split; [| done].
  rewrite Hc. by_evaluation.
Defined.

(** [{(0,0)} = 1] and [{(0,2), (0,3)} = 0] are resolved in two passes. *)
Lemma all_mines_all_safe_laws_witness :
  ∃ ai', update_knowledge 2 forced = Some ai' ∧
         {[(0, 0)]} ⊆ mines ai' ∧ {[(0, 2); (0, 3)]} ⊆ safes ai'.
Proof.
  eexists. split; [vm_compute; reflexivity |]. split.
  - refine (proj1 (proj2 (proj2
      (all_mines_all_safe_laws 2 forced _ (Sentence.init {[(0, 0)]} 1) _ _))) _);
      [vm_compute; reflexivity | by_evaluation | by_evaluation].
  - refine (proj2 (proj2 (proj2
      (all_mines_all_safe_laws 2 forced _ (Sentence.init {[(0, 2); (0, 3)]} 0) _ _))) _);
      [vm_compute; reflexivity | by_evaluation | by_evaluation].
Defined.

(** [{(0,0), (0,2)} = 1] is true of the layout with one mine at (0,0). *)
Lemma update_knowledge_terminates_witness :
  ∃ fuel ai',
    (∀ fuel', (fuel ≤ fuel')%nat →
              update_knowledge fuel' after_first_reveal = Some ai') ∧
    ∃ last, pass last = (ai', false).
Proof.
  apply (update_knowledge_terminates {[(0, 0)]} after_first_reveal).
  repeat constructor.
Defined.

(** The corner (0,0) of an empty 3x3 agent. *)
Lemma add_knowledge_sentence_witness :
  ((0, 0) ∉ moves_made (init 3 3)) ∧
  ∃ N : gset Cell,
    (size N ≤ 8)%nat ∧
    Sentence.cells (new_sentence (0, 0) 1 (init 3 3))
      = N ∖ mines (init 3 3) ∖ safes (init 3 3) ∧
    knowledge (add_sentence (0, 0) 1 (init 3 3))
      = [new_sentence (0, 0) 1 (init 3 3)].
Proof.
  assert ((0, 0) ∉ moves_made (init 3 3)) as Hfresh by by_evaluation.
  split; [done |].
  destruct (add_knowledge_sentence (init 3 3) (0, 0) 1 Hfresh)
    as (N & _ & Hsize & Hcells & _ & Happ & _).
  exists N. split; [done |]. split; [done |].
  apply Happ. by_evaluation.
Defined.

(** Replaying the first reveal, with another count, changes nothing. *)
Lemma add_knowledge_played_cell_witness :
  add_knowledge 1 (0, 1) 5 after_first_reveal = Some after_first_reveal.
Proof.
  assert ((0, 1) ∈ moves_made after_first_reveal) as Hplayed by by_evaluation.
  destruct (add_knowledge_played_cell after_first_reveal (0, 1) 5 Hplayed)
    as (_ & _ & Hnoop & Hconv).
  apply Hnoop. apply (Hconv 1%nat (add_sentence (0, 1) 1 (init 1 4))).
  vm_compute; reflexivity.
Defined.

(** (0,1) is a neighbour of the corner (0,0) on the 3x3 board. *)
Lemma add_knowledge_cells_in_bounds_witness :
  0 ≤ (0, 1).1 < height (init 3 3) ∧ 0 ≤ (0, 1).2 < width (init 3 3).
Proof.
  apply (add_knowledge_cells_in_bounds (init 3 3) (0, 0) 1 (0, 1)).
  by_evaluation.
Defined.

(** (0,2) is safe and not yet played. *)
Lemma make_safe_move_spec_witness :
  ∃ c, (make_safe_move one_safe_left).1 = Some c ∧
       c ∈ safes one_safe_left ∧ c ∉ moves_made one_safe_left.
Proof.
  apply (proj1 (proj2 (make_safe_move_spec one_safe_left))).
  by_evaluation.
Defined.

(** The first reveal on the 1x4 board. *)
Lemma fact_sets_grow_witness : grows (init 1 4) after_first_reveal.
Proof.
  apply (proj1 (proj2 (proj2 (proj2 (fact_sets_grow (init 1 4)))))
           1%nat (0, 1) 1 after_first_reveal).
  vm_compute; reflexivity.
Defined.

(** ** Soundness on an honest board *)

Lemma new_mines_true M K :
  Forall (holds_in M) K → (collect K).1 ⊆ M.
Proof.
  rewrite list.Forall_forall. intros HK c Hc.
  apply elem_of_new_mines in Hc as (s & Hs & Hcnt & Hc).
  by apply (holds_in_all_mines M s (HK s Hs) Hcnt).
Qed.

Lemma new_safes_true M K :
  Forall (holds_in M) K → (collect K).2 ∩ M = ∅.
Proof.
  rewrite list.Forall_forall. intros HK.
  apply set_eq. intros c. rewrite elem_of_intersection. split; [| set_solver].
  intros [Hc HM]. apply elem_of_new_safes in Hc as (s & Hs & Hcnt & Hc).
  pose proof (holds_in_all_safe M s (HK s Hs) Hcnt). set_solver.
Qed.

Lemma pass_truthful M ai : truthful M ai → truthful M (pass ai).1.
Proof.
  intros (Hm & Hs & HK). split_and!; [| | by apply pass_consistent].
  - pose proof (new_mines_true M _ HK) as Hnm.
    rewrite pass_resolve. destruct (resolve_spec ai) as (D & HD & ->). simpl.
    intros c Hc. apply elem_of_union in Hc as [Hc | Hc]; [by apply Hm |].
    apply elem_of_list_to_set, HD in Hc as [Hc _]. by apply Hnm.
  - pose proof (new_safes_true M _ HK) as Hns.
    rewrite pass_resolve. destruct (resolve_spec ai) as (D & HD & ->). simpl.
    set_solver.
Qed.

Lemma update_knowledge_truthful M fuel : ∀ ai ai',
  truthful M ai → update_knowledge fuel ai = Some ai' → truthful M ai'.
Proof.
  induction fuel as [| fuel IH]; intros ai ai' Ht; simpl; [done |].
  pose proof (pass_truthful M ai Ht) as Ht1.
  destruct (pass ai) as [ai1 [|]]; simpl in Ht1.
  - by apply IH.
  - by intros [= <-].
Qed.

Lemma add_sentence_truthful M cell count ai :
  truthful M ai → cell ∉ M →
  count = Z.of_nat (size (board_neighbours ai cell ∩ M)) →
  truthful M (add_sentence cell count ai).
Proof.
  intros (Hm & Hs & HK) Hcell Hcount.
  destruct (decide (cell ∈ moves_made ai)) as [Hplayed | Hfresh].
  { unfold add_sentence. rewrite gather_played by done.
    by rewrite bool_decide_false by tauto. }
  assert (mines (add_sentence cell count ai) = mines ai ∧
          safes (add_sentence cell count ai) = {[cell]} ∪ safes ai) as [Hm' Hs'].
  { unfold add_sentence, gather. rewrite bool_decide_true by done.
    destruct (scan _ _) as [k nb]. by case_bool_decide. }
  unfold truthful. rewrite Hm', Hs', add_sentence_knowledge.
  split_and!; [done | set_solver |].
  case_bool_decide; [| done]. apply Forall_app. split; [done |].
  apply Forall_singleton. rewrite new_sentence_fresh by done.
  unfold holds_in. simpl. rewrite Hcount.
  set (N := board_neighbours ai cell).
  assert (N ∩ M = (N ∩ mines ai) ∪ (N ∖ mines ai ∖ safes ai) ∩ M) as Hsplit.
  { apply set_eq. intros x.
    rewrite elem_of_union, !elem_of_intersection, !elem_of_difference.
    destruct (decide (x ∈ mines ai)); set_solver. }
  rewrite Hsplit, size_union by set_solver. lia.
Qed.

(** X1. Marking a cell that is not in the opposite set keeps the disjointness
    invariant: the cell leaves every sentence as it enters [mines]
    (respectively [safes]). *)
Theorem marking_preserves_disjointness (ai : MinesweeperAI.t) (cell : Cell) :
  disjointness ai →
  (cell ∉ safes ai → disjointness (mark_mine cell ai)) ∧
  (cell ∉ mines ai → disjointness (mark_safe cell ai)).
Proof.
  intros [Hsm HK]. rewrite list.Forall_forall in HK. split; intros Hcell.
  - split; [simpl; set_solver |]. simpl. apply Forall_fmap, list.Forall_forall.
    intros s Hs. simpl. rewrite sentence_mark_mine_cells.
    pose proof (HK s Hs). set_solver.
  - split; [simpl; set_solver |]. simpl. apply Forall_fmap, list.Forall_forall.
    intros s Hs. simpl. rewrite sentence_mark_safe_cells.
    pose proof (HK s Hs). set_solver.
Qed.

(** Marking (0,0) in the state after the first reveal. *)
Lemma marking_preserves_disjointness_witness :
  disjointness (mark_mine (0, 0) after_first_reveal) ∧
  disjointness (mark_safe (0, 0) after_first_reveal).
Proof.
  assert (disjointness after_first_reveal) as Hinv by by_evaluation.
  destruct (marking_preserves_disjointness after_first_reveal (0, 0) Hinv) as [H1 H2].
  split; [apply H1 | apply H2]; by_evaluation.
Defined.

(** X2. Soundness of the fixed point: when every belief of the agent is true
    of the mine layout [M] ([mines ⊆ M], no cell of [safes] in [M], every
    Sentence has exactly [count] of its cells in [M]), the same holds of
    the state [update_knowledge] returns: no cell is marked a mine or safe
    wrongly. *)
Theorem update_knowledge_sound
    (M : gset Cell) (fuel : nat) (ai ai' : MinesweeperAI.t) :
  mines ai ⊆ M → safes ai ∩ M = ∅ → Forall (holds_in M) (knowledge ai) →
  update_knowledge fuel ai = Some ai' →
  mines ai' ⊆ M ∧ safes ai' ∩ M = ∅ ∧ Forall (holds_in M) (knowledge ai').
Proof.
  intros Hm Hs HK Hrun. by apply (update_knowledge_truthful M fuel ai ai').
Qed.

(** The forced mine is the mine of the layout. *)
Lemma update_knowledge_sound_witness :
  ∃ ai', update_knowledge 2 forced = Some ai' ∧
         mines ai' ⊆ {[(0, 0)]} ∧ safes ai' ∩ {[(0, 0)]} = ∅.
Proof.
  eexists. split; [vm_compute; reflexivity |].
  refine (let H := update_knowledge_sound {[(0, 0)]} 2 forced _ _ _ _ _ in
          conj (proj1 H) (proj1 (proj2 H))).
  - by_evaluation.
  - by_evaluation.
  - repeat constructor.
  - vm_compute; reflexivity.
Defined.

(** X3. An honest reveal: when the agent's beliefs are true of the layout [M],
    the revealed cell is not a mine and [count] is the number of mines
    among its in-bounds neighbours, [add_knowledge] terminates and the
    beliefs of the state it returns are again true of [M]. *)
Theorem add_knowledge_honest
    (M : gset Cell) (ai : MinesweeperAI.t) (cell : Cell) (count : Z) :
  truthful M ai → cell ∉ M →
  count = Z.of_nat (size (board_neighbours ai cell ∩ M)) →
  ∃ fuel ai', add_knowledge fuel cell count ai = Some ai' ∧ truthful M ai'.
Proof.
  intros Ht Hcell Hcount.
  pose proof (add_sentence_truthful M cell count ai Ht Hcell Hcount) as Ht1.
  destruct Ht1 as (Hm & Hs & HK).
  destruct (update_knowledge_terminates_measure M _ _ _ eq_refl eq_refl HK)
    as (fuel & ai' & Hrun).
  exists fuel, ai'. split; [done |].
  by apply (update_knowledge_truthful M fuel (add_sentence cell count ai)).
Qed.

(** The second honest reveal on the 1x4 board. *)
Lemma add_knowledge_honest_witness :
  ∃ fuel ai', add_knowledge fuel (0, 2) 0 after_first_reveal = Some ai' ∧
              truthful {[(0, 0)]} ai'.
Proof.
  apply (add_knowledge_honest {[(0, 0)]} after_first_reveal (0, 2) 0).
  - split; [by_evaluation |]. split; [by_evaluation | repeat constructor].
  - by_evaluation.
  - vm_compute; reflexivity.
Defined.

(** ** The order of iteration over a set *)

(** A run of [mark_mine] calls on a sentence depends only on the set of
    cells marked. *)
Lemma marks_mine_closed D : ∀ s,
  marks_mine D s =
  Sentence.mk (Sentence.cells s ∖ list_to_set D)
    (Sentence.count s - Z.of_nat (size (Sentence.cells s ∩ list_to_set D)))
    (Sentence.cells s ∩ list_to_set D ∪ Sentence.mine_cell s)
    (Sentence.safe_cell s).
Proof.
  induction D as [| c D IH]; intros s.
  - destruct s as [cs n mc sc]. simpl. f_equal; [set_solver | | set_solver].
    replace (cs ∩ ∅) with (∅ : gset Cell) by set_solver.
    rewrite size_empty. lia.
  - change (marks_mine (c :: D) s) with (marks_mine D (Sentence.mark_mine c s)).
    rewrite IH. unfold Sentence.mark_mine. rewrite list_to_set_cons.
    case_bool_decide as Hin; simpl.
    + assert (Sentence.cells s ∩ ({[c]} ∪ list_to_set D)
              = {[c]} ∪ (Sentence.cells s ∖ {[c]}) ∩ list_to_set D) as Hsplit.
      { apply set_eq. intros x.
        rewrite elem_of_union, !elem_of_intersection, elem_of_difference,
          elem_of_union, elem_of_singleton.
        destruct (decide (x = c)) as [-> | Hne]; tauto. }
      f_equal; [set_solver | | set_solver].
      rewrite Hsplit.
      rewrite (size_union ({[c]} : gset Cell)
                 ((Sentence.cells s ∖ {[c]}) ∩ list_to_set D)) by set_solver.
      rewrite size_singleton. lia.
    + assert (Sentence.cells s ∩ ({[c]} ∪ list_to_set D)
              = Sentence.cells s ∩ list_to_set D) as -> by set_solver.
      f_equal. set_solver.
Qed.

Lemma marks_safe_closed L : ∀ s,
  marks_safe L s =
  Sentence.mk (Sentence.cells s ∖ list_to_set L) (Sentence.count s)
    (Sentence.mine_cell s)
    (Sentence.cells s ∩ list_to_set L ∪ Sentence.safe_cell s).
Proof.
  induction L as [| c L IH]; intros s.
  - destruct s as [cs n mc sc]. simpl. f_equal; set_solver.
  - change (marks_safe (c :: L) s) with (marks_safe L (Sentence.mark_safe c s)).
    rewrite IH. unfold Sentence.mark_safe. rewrite list_to_set_cons.
    case_bool_decide as Hin; simpl; f_equal; try set_solver.
    apply set_eq. intros x.
    rewrite !elem_of_union, !elem_of_intersection, elem_of_difference,
      elem_of_union, elem_of_singleton.
    destruct (decide (x = c)) as [-> | Hne]; tauto.
Qed.

Lemma list_to_set_same (L1 L2 : list Cell) :
  (∀ c, c ∈ L1 ↔ c ∈ L2) → list_to_set L1 = (list_to_set L2 : gset Cell).
Proof. intros H. apply set_eq. intros c. by rewrite !elem_of_list_to_set. Qed.

Lemma nonempty_same (L1 L2 : list Cell) :
  (∀ c, c ∈ L1 ↔ c ∈ L2) → bool_decide (L1 ≠ []) = bool_decide (L2 ≠ []).
Proof.
  intros H. destruct L1 as [| c1 L1], L2 as [| c2 L2]; try done.
  - exfalso. eapply elem_of_nil, H, list_elem_of_here.
  - exfalso. eapply elem_of_nil, H, list_elem_of_here.
Qed.

(** X4. The marking loops of [update_knowledge] visit a set in Python's
    unspecified order: two enumerations of the same set of cells leave the
    same state and the same flag [updated]. *)
Theorem marking_order_irrelevant
    (L1 L2 : list Cell) (ai : MinesweeperAI.t) (updated : bool) :
  (∀ c, c ∈ L1 ↔ c ∈ L2) →
  mark_new_mines L1 (ai, updated) = mark_new_mines L2 (ai, updated) ∧
  mark_new_safes L1 (ai, updated) = mark_new_safes L2 (ai, updated).
Proof.
  intros Hsame. split.
  - destruct (mark_new_mines_spec L1 ai updated) as (D1 & HD1 & ->).
    destruct (mark_new_mines_spec L2 ai updated) as (D2 & HD2 & ->).
    assert (∀ c, c ∈ D1 ↔ c ∈ D2) as HD.
    { intros c. rewrite HD1, HD2, Hsame. done. }
    rewrite (list_to_set_same D1 D2 HD), (nonempty_same D1 D2 HD).
    do 2 f_equal. apply list_fmap_ext. intros _ s _.
    by rewrite !marks_mine_closed, (list_to_set_same D1 D2 HD).
  - rewrite !mark_new_safes_spec.
    rewrite (list_to_set_same L1 L2 Hsame), (nonempty_same L1 L2 Hsame).
    do 2 f_equal. apply list_fmap_ext. intros _ s _.
    by rewrite !marks_safe_closed, (list_to_set_same L1 L2 Hsame).
Qed.

(** Two enumerations of [{(0,0), (0,2)}], one with a repetition. *)
Lemma marking_order_irrelevant_witness :
  mark_new_mines [(0, 0); (0, 2)] (after_first_reveal, false)
  = mark_new_mines [(0, 2); (0, 0); (0, 2)] (after_first_reveal, false).
Proof.
  apply (marking_order_irrelevant [(0, 0); (0, 2)] [(0, 2); (0, 0); (0, 2)]).
  intros c. rewrite !elem_of_cons, !elem_of_nil. tauto.
Defined.

(** ** Random moves *)

Lemma elem_of_grid (ai : MinesweeperAI.t) (c : Cell) :
  c ∈ (list_to_set (product (range 0 (height ai)) (range 0 (width ai))) : gset Cell)
  ↔ on_board ai c.
Proof.
  rewrite elem_of_list_to_set, elem_of_product, !elem_of_range. done.
Qed.

(** X5. [make_random_move] leaves the agent untouched.  A cell it returns
    lies on the grid and is neither in [moves_made] nor in [mines]; it
    returns [None] only when every cell of the grid is in [moves_made] or
    in [mines]. *)
Theorem make_random_move_spec (rnd : nat) (ai : MinesweeperAI.t) :
  (make_random_move rnd ai).2 = ai ∧
  match (make_random_move rnd ai).1 with
  | Some c => on_board ai c ∧ (c ∉ moves_made ai) ∧ c ∉ mines ai
  | None => ∀ c, on_board ai c → c ∈ moves_made ai ∨ c ∈ mines ai
  end.
Proof.
  split; [done |]. unfold make_random_move. simpl.
  set (all := list_to_set (product (range 0 (height ai)) (range 0 (width ai)))
              : gset Cell).
  destruct (elements (all ∖ moves_made ai ∖ mines ai)) as [| c0 l] eqn:Hel.
  - intros c Hc. apply elements_empty_inv, leibniz_equiv in Hel.
    apply elem_of_grid in Hc. fold all in Hc.
    destruct (decide (c ∈ moves_made ai)) as [| Hm]; [by left |].
    destruct (decide (c ∈ mines ai)) as [| Hn]; [by right |].
    exfalso. eapply (not_elem_of_empty (C:=gset Cell) c). rewrite <- Hel.
    by rewrite !elem_of_difference.
  - assert (rnd `mod` length (c0 :: l) < length (c0 :: l))%nat as Hlt.
    { apply Nat.mod_upper_bound. simpl. lia. }
    apply lookup_lt_is_Some_2 in Hlt as [c Hc]. rewrite Hc.
    apply list_elem_of_lookup_2 in Hc. rewrite <- Hel in Hc.
    apply elem_of_elements in Hc. rewrite !elem_of_difference in Hc.
    destruct Hc as [[Hall Hm] Hn]. by apply elem_of_grid in Hall.
Qed.

(** ** How the marking operations compose *)

Lemma sentence_marks_commute c1 c2 s :
  Sentence.mark_mine c1 (Sentence.mark_mine c2 s)
    = Sentence.mark_mine c2 (Sentence.mark_mine c1 s) ∧
  Sentence.mark_safe c1 (Sentence.mark_safe c2 s)
    = Sentence.mark_safe c2 (Sentence.mark_safe c1 s) ∧
  (c1 ≠ c2 →
   Sentence.mark_mine c1 (Sentence.mark_safe c2 s)
     = Sentence.mark_safe c2 (Sentence.mark_mine c1 s)).
Proof.
  rewrite (marks_mine_closed [c2; c1] s : Sentence.mark_mine c1 (Sentence.mark_mine c2 s) = _).
  rewrite (marks_mine_closed [c1; c2] s : Sentence.mark_mine c2 (Sentence.mark_mine c1 s) = _).
  rewrite (marks_safe_closed [c2; c1] s : Sentence.mark_safe c1 (Sentence.mark_safe c2 s) = _).
  rewrite (marks_safe_closed [c1; c2] s : Sentence.mark_safe c2 (Sentence.mark_safe c1 s) = _).
  assert (list_to_set [c2; c1] = (list_to_set [c1; c2] : gset Cell)) as ->
    by (simpl; set_solver).
  split; [done |]. split; [done |]. intros Hne.
  change (Sentence.mark_mine c1 (Sentence.mark_safe c2 s))
    with (marks_mine [c1] (marks_safe [c2] s)).
  change (Sentence.mark_safe c2 (Sentence.mark_mine c1 s))
    with (marks_safe [c2] (marks_mine [c1] s)).
  rewrite !marks_mine_closed, !marks_safe_closed. simpl.
  assert ((Sentence.cells s ∖ ({[c2]} ∪ ∅)) ∩ ({[c1]} ∪ ∅)
          = Sentence.cells s ∩ ({[c1]} ∪ ∅)) as -> by set_solver.
  f_equal; set_solver.
Qed.

(** X6. The agent's marking operations commute: two [mark_mine] calls, or
    two [mark_safe] calls, give the same state in either order, and so do
    a [mark_mine] and a [mark_safe] of different cells. *)
Theorem marks_commute (ai : MinesweeperAI.t) (c1 c2 : Cell) :
  mark_mine c1 (mark_mine c2 ai) = mark_mine c2 (mark_mine c1 ai) ∧
  mark_safe c1 (mark_safe c2 ai) = mark_safe c2 (mark_safe c1 ai) ∧
  (c1 ≠ c2 → mark_mine c1 (mark_safe c2 ai) = mark_safe c2 (mark_mine c1 ai)).
Proof.
  split_and!.
  - unfold mark_mine; simpl. f_equal; [set_solver |].
    rewrite <- !list_fmap_compose. apply list_fmap_ext; intros _ s _. simpl.
    apply sentence_marks_commute.
  - unfold mark_safe; simpl. f_equal; [set_solver |].
    rewrite <- !list_fmap_compose. apply list_fmap_ext; intros _ s _. simpl.
    apply sentence_marks_commute.
  - intros Hne. unfold mark_mine, mark_safe; simpl. f_equal.
    rewrite <- !list_fmap_compose. apply list_fmap_ext; intros _ s _. simpl.
    by apply sentence_marks_commute.
Qed.

(** ** What the sentences remember *)

Lemma recorded_after ai ai' D L s :
  recorded ai s →
  mines ai ∪ list_to_set D ⊆ mines ai' →
  safes ai ∪ list_to_set L ⊆ safes ai' →
  recorded ai' (marks_safe L (marks_mine D s)).
Proof.
  unfold recorded. intros (H1 & H2 & H3 & H4 & H5) Hm Hs.
  rewrite marks_safe_closed, marks_mine_closed. simpl.
  split_and!; set_solver.
Qed.

Lemma recorded_fresh ai cs n : recorded ai (Sentence.init cs n).
Proof. unfold recorded. simpl. split_and!; set_solver. Qed.

Lemma pass_history ai : history_ok ai → history_ok (pass ai).1.
Proof.
  unfold history_ok. intros HK. rewrite list.Forall_forall in HK.
  apply list.Forall_forall. intros s Hs.
  rewrite pass_knowledge in Hs. apply elem_of_app in Hs as [Hs | Hs].
  - rewrite pass_resolve. destruct (resolve_spec ai) as (D & HD & Heq).
    rewrite Heq in Hs |- *. simpl in Hs |- *.
    apply elem_of_resolved in Hs as (_ & s0 & Hs0 & ->).
    apply (recorded_after ai); [by apply HK | simpl; set_solver |].
    simpl. rewrite list_to_set_elements_L. set_solver.
  - destruct (combine_new (knowledge (resolve ai).1) (resolve ai).2) as [Hd _].
    rewrite list.Forall_forall in Hd.
    destruct (Hd s Hs) as (A & B & _ & _ & _ & _ & _ & _ & -> & _).
    apply recorded_fresh.
Qed.

Lemma update_knowledge_history fuel : ∀ ai ai',
  history_ok ai → update_knowledge fuel ai = Some ai' → history_ok ai'.
Proof.
  induction fuel as [| fuel IH]; intros ai ai' Hh; simpl; [done |].
  pose proof (pass_history ai Hh) as Hh1.
  destruct (pass ai) as [ai1 [|]]; simpl in Hh1.
  - by apply IH.
  - by intros [= <-].
Qed.

Lemma add_sentence_history cell count ai :
  history_ok ai → history_ok (add_sentence cell count ai).
Proof.
  unfold history_ok. intros HK.
  pose proof (add_sentence_grows cell count ai) as (_ & Hs & Hm).
  assert (Forall (recorded (add_sentence cell count ai)) (knowledge ai)) as HK'.
  { eapply Forall_impl; [| exact HK].
    intros s (H1 & H2 & H3 & H4 & H5). unfold recorded. split_and!; set_solver. }
  rewrite add_sentence_knowledge. case_bool_decide; [| done].
  apply Forall_app. split; [done |]. apply Forall_singleton.
  unfold new_sentence. destruct (gather cell count ai) as [ai1 [nb adj]].
  apply recorded_fresh.
Qed.

(** X7. The history sets [mine_cell] and [safe_cell] of the sentences are
    kept by every operation of the agent: when, for every Sentence of
    [knowledge], [cells], [mine_cell] and [safe_cell] are pairwise
    disjoint, [mine_cell] is within the agent's [mines] and [safe_cell]
    within its [safes], the same holds after [mark_mine], [mark_safe],
    [update_knowledge] and [add_knowledge]. *)
Theorem history_kept (ai : MinesweeperAI.t) :
  history_ok ai →
  (∀ cell, history_ok (mark_mine cell ai)) ∧
  (∀ cell, history_ok (mark_safe cell ai)) ∧
  (∀ fuel ai', update_knowledge fuel ai = Some ai' → history_ok ai') ∧
  (∀ fuel cell count ai',
     add_knowledge fuel cell count ai = Some ai' → history_ok ai').
Proof.
  intros Hh. split_and!.
  - intros cell. unfold history_ok in *. simpl. apply Forall_fmap.
    eapply Forall_impl; [| exact Hh]. intros s Hs. simpl.
    change (Sentence.mark_mine cell s) with (marks_safe [] (marks_mine [cell] s)).
    apply (recorded_after ai); [done | simpl; set_solver | simpl; set_solver].
  - intros cell. unfold history_ok in *. simpl. apply Forall_fmap.
    eapply Forall_impl; [| exact Hh]. intros s Hs. simpl.
    change (Sentence.mark_safe cell s) with (marks_safe [cell] (marks_mine [] s)).
    apply (recorded_after ai); [done | simpl; set_solver | simpl; set_solver].
  - intros fuel ai'. by apply update_knowledge_history.
  - intros fuel cell count ai' Hrun. unfold add_knowledge in Hrun.
    eapply update_knowledge_history; [| exact Hrun].
    by apply add_sentence_history.
Qed.

(** After two honest reveals on the 1x4 board. *)
Lemma history_kept_witness :
  ∃ ai', add_knowledge 2 (0, 2) 0 after_first_reveal = Some ai' ∧ history_ok ai'.
Proof.
  eexists. split; [vm_compute; reflexivity |].
  refine (proj2 (proj2 (proj2 (history_kept after_first_reveal _)))
            2%nat (0, 2) 0 _ _).
  - repeat constructor; set_solver.
  - vm_compute; reflexivity.
Defined.

(** ** The state the loop returns *)

(** X8. What holds of every state [update_knowledge] returns: no Sentence
    is empty; no Sentence has count zero; the cells of every Sentence
    whose count equals the number of its cells are all in [mines]; and
    the knowledge is closed under subset inference: for unequal Sentences
    [A], [B] of it with [B.cells ⊆ A.cells] and [A.count − B.count ≥ 0] a
    Sentence equal to [A.cells − B.cells = A.count − B.count] is in it;
    and no two Sentences have the same cells and different counts. *)
Theorem update_knowledge_result
    (fuel : nat) (ai ai' : MinesweeperAI.t) :
  update_knowledge fuel ai = Some ai' →
  Forall (λ s, Sentence.cells s ≠ ∅ ∧ Sentence.count s ≠ 0) (knowledge ai') ∧
  (∀ s, s ∈ knowledge ai' →
        Sentence.count s = Z.of_nat (size (Sentence.cells s)) →
        Sentence.cells s ⊆ mines ai') ∧
  (∀ A B, A ∈ knowledge ai' → B ∈ knowledge ai' →
          Sentence.eqb A B = false →
          Sentence.cells B ⊆ Sentence.cells A →
          0 ≤ Sentence.count A - Sentence.count B →
          Sentence.contains (candidate A B) (knowledge ai') = true) ∧
  (∀ A B, A ∈ knowledge ai' → B ∈ knowledge ai' →
          Sentence.cells A = Sentence.cells B →
          Sentence.count A = Sentence.count B).
Proof.
  intros Hrun. apply update_knowledge_converged in Hrun.
  unfold converged in Hrun. apply pass_quiet in Hrun as (Hnm & Hns & Hclear & Hcomb).
  assert (knowledge ai' = filter (λ s, Sentence.cells s ≠ ∅) (knowledge ai')) as HK.
  { rewrite Hclear at 1. done. }
  assert (∀ s, s ∈ knowledge ai' → Sentence.cells s ≠ ∅) as Hne.
  { intros s Hs. rewrite HK in Hs. by apply list_elem_of_filter in Hs as [? _]. }
  split_and!.
  - apply list.Forall_forall. intros s Hs. split; [by apply Hne |].
    intros Hz. destruct (set_choose_L _ (Hne s Hs)) as [c Hc].
    eapply (not_elem_of_empty (C:=gset Cell) c). rewrite <- Hns.
    apply elem_of_new_safes. by exists s.
  - intros s Hs Hcnt c Hc. apply Hnm, elem_of_new_mines. by exists s.
  - intros A B HA HB He Hsub Hcnt.
    destruct (Sentence.contains (candidate A B) (knowledge ai')) eqn:Hin; [done |].
    unfold clear_empty in Hcomb. simpl in Hcomb. rewrite <- HK in Hcomb.
    pose proof (combine_complete (knowledge ai') ([], false) A B
                  HA HB He Hsub (Hne B HB) Hcnt Hin) as Hc.
    by rewrite Hcomb in Hc.
  - assert (∀ A B, A ∈ knowledge ai' → B ∈ knowledge ai' →
              Sentence.cells A = Sentence.cells B →
              ¬ Sentence.count B < Sentence.count A) as Hle.
    { intros A B HA HB Hcells Hlt.
      destruct (Sentence.contains (candidate A B) (knowledge ai')) eqn:Hin.
      - apply sentence_contains_true in Hin as (S & HS & Heq).
        apply sentence_eqb_true in Heq as [Hc _]. simpl in Hc.
        apply (Hne S HS). rewrite <- Hc, Hcells. set_solver.
      - unfold clear_empty in Hcomb. simpl in Hcomb. rewrite <- HK in Hcomb.
        assert (Sentence.eqb A B = false) as He.
        { destruct (Sentence.eqb A B) eqn:He; [| done].
          apply sentence_eqb_true in He as [_ He]. lia. }
        pose proof (combine_complete (knowledge ai') ([], false) A B
                      HA HB He) as Hc.
        rewrite Hcomb in Hc. simpl in Hc.
        assert (false = true) as Habs; [| done].
        apply Hc; [by rewrite Hcells | by apply Hne | lia | done]. }
    intros A B HA HB Hcells.
    pose proof (Hle A B HA HB Hcells). pose proof (Hle B A HB HA (eq_sym Hcells)).
    lia.
Qed.

(** The state the first reveal on the 1x4 board ends in. *)
Lemma update_knowledge_result_witness :
  Forall (λ s, Sentence.cells s ≠ ∅ ∧ Sentence.count s ≠ 0)
         (knowledge after_first_reveal).
Proof.
  apply (proj1 (update_knowledge_result 1 (add_sentence (0, 1) 1 (init 1 4))
                  after_first_reveal eq_refl)).
Defined.

(** ** What [add_knowledge] leaves alone *)

Lemma pass_frame ai :
  height (pass ai).1 = height ai ∧ width (pass ai).1 = width ai.
Proof.
  rewrite pass_resolve. by destruct (resolve_spec ai) as (D & _ & ->).
Qed.

Lemma update_knowledge_frame fuel : ∀ ai ai',
  update_knowledge fuel ai = Some ai' →
  height ai' = height ai ∧ width ai' = width ai.
Proof.
  induction fuel as [| fuel IH]; intros ai ai'; simpl; [done |].
  destruct (pass_frame ai) as [Hh Hw]. destruct (pass ai) as [ai1 [|]]; simpl in *.
  - intros Hrun. apply IH in Hrun as [? ?]. split; congruence.
  - by intros [= <-].
Qed.

Lemma add_sentence_frame cell count ai :
  height (add_sentence cell count ai) = height ai ∧
  width (add_sentence cell count ai) = width ai ∧
  moves_made (add_sentence cell count ai) = {[cell]} ∪ moves_made ai ∧
  (cell ∉ moves_made ai → cell ∈ safes (add_sentence cell count ai)).
Proof.
  unfold add_sentence, gather. case_bool_decide as Hfresh.
  - destruct (scan _ _) as [k nb]. case_bool_decide; simpl; split_and!; set_solver.
  - rewrite bool_decide_false by tauto. split_and!; set_solver.
Qed.

Lemma pass_universe_subset ai :
  universe (knowledge (pass ai).1) ⊆ universe (knowledge ai).
Proof.
  rewrite pass_knowledge, universe_app.
  pose proof (resolve_universe ai) as Hres.
  destruct (combine_new (knowledge (resolve ai).1) (resolve ai).2) as [Hd _].
  rewrite list.Forall_forall in Hd.
  intros c [Hc | Hc]%elem_of_union; [by apply Hres |].
  apply elem_of_universe in Hc as (S & HS & Hc).
  destruct (Hd S HS) as (A & B & HA & _ & _ & _ & _ & _ & -> & _).
  simpl in Hc. apply Hres, elem_of_universe. exists A. set_solver.
Qed.

Lemma update_knowledge_universe fuel : ∀ ai ai',
  update_knowledge fuel ai = Some ai' →
  universe (knowledge ai') ⊆ universe (knowledge ai).
Proof.
  induction fuel as [| fuel IH]; intros ai ai'; simpl; [done |].
  pose proof (pass_universe_subset ai) as Hp.
  destruct (pass ai) as [ai1 [|]]; simpl in Hp.
  - intros Hrun. apply IH in Hrun. set_solver.
  - by intros [= <-].
Qed.

Lemma add_sentence_universe cell count ai c :
  c ∈ universe (knowledge (add_sentence cell count ai)) →
  c ∈ universe (knowledge ai) ∨ (adjacent cell c ∧ on_board ai c).
Proof.
  rewrite add_sentence_knowledge. case_bool_decide as Hne; [| by left].
  rewrite universe_app, elem_of_union. intros [Hc | Hc]; [by left | right].
  apply elem_of_universe in Hc as (s & Hs & Hc).
  apply list_elem_of_singleton in Hs as ->.
  destruct (decide (cell ∈ moves_made ai)) as [Hplayed | Hfresh].
  - unfold new_sentence in Hc. rewrite gather_played in Hc by done.
    simpl in Hc. set_solver.
  - rewrite new_sentence_fresh in Hc by done. simpl in Hc.
    apply elem_of_board_neighbours. set_solver.
Qed.

(** X9. A call [add_knowledge(cell, count)] that returns has added exactly
    [cell] to [moves_made], has [cell] in [safes] when the cell was not
    played before, and has left [height] and [width] as they were. *)
Theorem add_knowledge_records_move
    (fuel : nat) (cell : Cell) (count : Z) (ai ai' : MinesweeperAI.t) :
  add_knowledge fuel cell count ai = Some ai' →
  moves_made ai' = {[cell]} ∪ moves_made ai ∧
  (cell ∉ moves_made ai → cell ∈ safes ai') ∧
  height ai' = height ai ∧ width ai' = width ai.
Proof.
  unfold add_knowledge. intros Hrun.
  destruct (add_sentence_frame cell count ai) as (Hh & Hw & Hm & Hs).
  pose proof (update_knowledge_moves_made _ _ _ Hrun) as Hm'.
  pose proof (update_knowledge_grows _ _ _ Hrun) as (_ & Hs' & _).
  pose proof (update_knowledge_frame _ _ _ Hrun) as [Hh' Hw'].
  split_and!; [congruence | | congruence | congruence].
  intros Hfresh. by apply Hs', Hs.
Qed.

(** The second reveal on the 1x4 board. *)
Lemma add_knowledge_records_move_witness :
  ∃ ai', add_knowledge 2 (0, 2) 0 after_first_reveal = Some ai' ∧
         moves_made ai' = {[(0, 2)]} ∪ moves_made after_first_reveal.
Proof.
  eexists. split; [vm_compute; reflexivity |].
  refine (proj1 (add_knowledge_records_move 2 (0, 2) 0 after_first_reveal _ _)).
  vm_compute; reflexivity.
Defined.

(** X10. The inference loop never brings a new cell into the sentences:
    every cell of a Sentence after [update_knowledge] was a cell of some
    Sentence before it.  Hence, when all cells of the sentences lie on the
    grid, they still do after [add_knowledge], whatever the cell and the
    count. *)
Theorem sentences_stay_on_board
    (fuel : nat) (cell : Cell) (count : Z) (ai ai' : MinesweeperAI.t) :
  (update_knowledge fuel ai = Some ai' →
   universe (knowledge ai') ⊆ universe (knowledge ai)) ∧
  (cells_on_board ai → add_knowledge fuel cell count ai = Some ai' →
   cells_on_board ai').
Proof.
  split; [apply update_knowledge_universe |].
  unfold cells_on_board, add_knowledge. intros Hon Hrun c Hc.
  apply (update_knowledge_universe _ _ _ Hrun) in Hc.
  destruct (update_knowledge_frame _ _ _ Hrun) as [Hh Hw].
  destruct (add_sentence_frame cell count ai) as (Hh' & Hw' & _).
  assert (on_board ai c) as Hb.
  { apply add_sentence_universe in Hc as [Hc | [_ Hc]]; [by apply Hon | done]. }
  unfold on_board in *. rewrite Hh, Hw, Hh', Hw'. done.
Qed.

(** The second reveal on the 1x4 board. *)
Lemma sentences_stay_on_board_witness :
  ∃ ai', add_knowledge 2 (0, 2) 0 after_first_reveal = Some ai' ∧
         cells_on_board ai'.
Proof.
  eexists. split; [vm_compute; reflexivity |].
  refine (proj2 (sentences_stay_on_board 2 (0, 2) 0 after_first_reveal _) _ _).
  - intros c Hc. apply elem_of_universe in Hc as (s & Hs & Hc).
    apply list_elem_of_singleton in Hs as ->. simpl in Hc.
    apply elem_of_union in Hc as [Hc | Hc]; apply elem_of_singleton in Hc as ->;
      by vm_compute.
  - vm_compute; reflexivity.
Defined.

(** ** The board: indexing *)

Lemma getitem_nonneg {A} (l : list A) (i : Z) (x : A) :
  0 ≤ i → l !! Z.to_nat i = Some x → Minesweeper.getitem l i = Minesweeper.Ok x.
Proof.
  intros Hi Hl. pose proof (lookup_lt_Some _ _ _ Hl) as Hlt.
  unfold Minesweeper.getitem. rewrite (bool_decide_false (i < 0)) by lia.
  rewrite bool_decide_true by lia. by rewrite Hl.
Qed.

Lemma getitem_negative {A} (l : list A) (i : Z) :
  i < 0 →
  Minesweeper.getitem l i =
  if bool_decide (0 ≤ i + Z.of_nat (length l))
  then Minesweeper.getitem l (i + Z.of_nat (length l))
  else Minesweeper.Raise Minesweeper.IndexError.
Proof.
  intros Hi. unfold Minesweeper.getitem. rewrite (bool_decide_true (i < 0)) by done.
  destruct (decide (0 ≤ i + Z.of_nat (length l))) as [Hk | Hk].
  - rewrite (bool_decide_true (0 ≤ i + Z.of_nat (length l))) by done.
    by rewrite (bool_decide_false (i + Z.of_nat (length l) < 0)) by lia.
  - rewrite (bool_decide_false (0 ≤ i + Z.of_nat (length l))) by done.
    by rewrite bool_decide_false by lia.
Qed.

Lemma getitem_beyond {A} (l : list A) (i : Z) :
  Z.of_nat (length l) ≤ i →
  Minesweeper.getitem l i = Minesweeper.Raise Minesweeper.IndexError.
Proof.
  intros Hi. unfold Minesweeper.getitem. rewrite (bool_decide_false (i < 0)) by lia.
  by rewrite bool_decide_false by lia.
Qed.

Lemma setitem_nonneg {A} (l : list A) (i : Z) (x : A) :
  0 ≤ i < Z.of_nat (length l) →
  Minesweeper.setitem l i x = Minesweeper.Ok (<[Z.to_nat i := x]> l).
Proof.
  intros Hi. unfold Minesweeper.setitem. rewrite (bool_decide_false (i < 0)) by lia.
  by rewrite bool_decide_true by lia.
Qed.

Lemma game_ok_lookup g i j :
  game_ok g →
  0 ≤ i < Minesweeper.height g → 0 ≤ j < Minesweeper.width g →
  ∃ row, Minesweeper.board g !! Z.to_nat i = Some row ∧
         length row = Z.to_nat (Minesweeper.width g) ∧
         row !! Z.to_nat j = Some (bool_decide ((i, j) ∈ Minesweeper.mines g)).
Proof.
  intros (Hlen & Hrows & _ & Hcell) Hi Hj.
  specialize (Hcell i j Hi Hj).
  destruct (Minesweeper.board g !! Z.to_nat i) as [row|] eqn:Hrow; [| done].
  exists row. split; [done |]. split; [| done].
  rewrite list.Forall_forall in Hrows. apply Hrows.
  by eapply list_elem_of_lookup_2.
Qed.

Lemma is_mine_on_board g i j :
  game_ok g →
  0 ≤ i < Minesweeper.height g → 0 ≤ j < Minesweeper.width g →
  Minesweeper.is_mine g (i, j)
  = Minesweeper.Ok (bool_decide ((i, j) ∈ Minesweeper.mines g)).
Proof.
  intros Hok Hi Hj. destruct (game_ok_lookup g i j Hok Hi Hj) as (row & Hrow & _ & Hc).
  unfold Minesweeper.is_mine. simpl.
  rewrite (getitem_nonneg _ _ row) by (done || lia). simpl.
  by rewrite (getitem_nonneg _ _ _ (proj1 Hj) Hc).
Qed.

(** ** The board: construction *)

Lemma foldl_append_const {A B} (x : A) (l : list B) : ∀ acc : list A,
  foldl (λ a _, a ++ [x]) acc l = acc ++ replicate (length l) x.
Proof.
  induction l as [| y l IH]; intros acc; simpl.
  - by rewrite app_nil_r.
  - rewrite IH, <- app_assoc. done.
Qed.

Lemma empty_board_spec h w :
  Minesweeper.empty_board h w
  = replicate (Z.to_nat h) (replicate (Z.to_nat w) false).
Proof.
  unfold Minesweeper.empty_board, Minesweeper.empty_row.
  rewrite !foldl_append_const. unfold range. rewrite !length_seqZ. simpl.
  by rewrite !Z.sub_0_r.
Qed.

Lemma game_ok_empty h w :
  game_ok (Minesweeper.mk h w ∅ (Minesweeper.empty_board h w) ∅).
Proof.
  unfold game_ok. simpl. rewrite empty_board_spec. split_and!.
  - apply length_replicate.
  - apply Forall_replicate, length_replicate.
  - intros c Hc. set_solver.
  - intros i j Hi Hj.
    rewrite lookup_replicate_2 by lia. simpl.
    rewrite lookup_replicate_2 by lia. by rewrite bool_decide_false by set_solver.
Qed.

(** Placing a mine on a free cell of the board, and drawing a cell that
    holds one already. *)
Lemma try_place_spec g i j :
  game_ok g →
  0 ≤ i < Minesweeper.height g → 0 ≤ j < Minesweeper.width g →
  ((i, j) ∈ Minesweeper.mines g → Minesweeper.try_place i j g = Minesweeper.Ok g) ∧
  ((i, j) ∉ Minesweeper.mines g →
   ∃ g', Minesweeper.try_place i j g = Minesweeper.Ok g' ∧ game_ok g' ∧
         Minesweeper.mines g' = {[(i, j)]} ∪ Minesweeper.mines g ∧
         Minesweeper.height g' = Minesweeper.height g ∧
         Minesweeper.width g' = Minesweeper.width g ∧
         Minesweeper.mines_found g' = Minesweeper.mines_found g).
Proof.
  intros Hok Hi Hj.
  destruct (game_ok_lookup g i j Hok Hi Hj) as (row & Hrow & Hrowlen & Hc).
  pose proof Hok as (Hlen & Hrows & Hin & Hcell).
  unfold Minesweeper.try_place.
  rewrite (getitem_nonneg _ _ row) by (done || lia). simpl.
  rewrite (getitem_nonneg _ _ _ (proj1 Hj) Hc). simpl.
  split; intros Hmine.
  - by rewrite bool_decide_true.
  - rewrite bool_decide_false by done. simpl.
    rewrite setitem_nonneg by lia. simpl.
    rewrite setitem_nonneg by lia. simpl.
    eexists. split; [done |]. split; [| done].
    unfold game_ok. simpl. split_and!.
    + by rewrite length_insert.
    + apply Forall_insert; [done |]. by rewrite length_insert.
    + intros c [Hc' | Hc']%elem_of_union; [| by apply Hin].
      apply elem_of_singleton in Hc' as ->. done.
    + intros i' j' Hi' Hj'.
      destruct (decide (i' = i)) as [-> | Hne].
      * rewrite list_lookup_insert_eq by lia. simpl.
        destruct (decide (j' = j)) as [-> | Hnej].
        -- rewrite list_lookup_insert_eq by lia.
           by rewrite bool_decide_true by set_solver.
        -- rewrite list_lookup_insert_ne by lia.
           destruct (game_ok_lookup g i j' Hok Hi Hj') as (row' & Hrow' & _ & Hc').
           rewrite Hrow in Hrow'. injection Hrow' as <-. rewrite Hc'.
           f_equal. apply bool_decide_ext. set_solver.
      * rewrite list_lookup_insert_ne by lia.
        destruct (game_ok_lookup g i' j' Hok Hi' Hj') as (row' & Hrow' & _ & Hc').
        rewrite Hrow'. simpl. rewrite Hc'.
        f_equal. apply bool_decide_ext. set_solver.
Qed.

Lemma randrange_spec n r :
  (0 < n → ∃ i, Minesweeper.randrange n r = Minesweeper.Ok i ∧ 0 ≤ i < n) ∧
  (n ≤ 0 → Minesweeper.randrange n r = Minesweeper.Raise Minesweeper.ValueError).
Proof.
  unfold Minesweeper.randrange. split; intros Hn.
  - rewrite bool_decide_true by done. eexists. split; [done |].
    by apply Z.mod_pos_bound.
  - by rewrite bool_decide_false by lia.
Qed.

(** The placing loop: what it returns, and why it can fail. *)
Lemma place_spec draws m : ∀ g r,
  game_ok g → Minesweeper.place draws m g = Some r →
  match r with
  | Minesweeper.Ok g' =>
      game_ok g' ∧ Z.of_nat (size (Minesweeper.mines g')) = m ∧
      Minesweeper.mines g ⊆ Minesweeper.mines g' ∧
      Minesweeper.height g' = Minesweeper.height g ∧
      Minesweeper.width g' = Minesweeper.width g ∧
      Minesweeper.mines_found g' = Minesweeper.mines_found g
  | Minesweeper.Raise e =>
      e = Minesweeper.ValueError ∧
      (Minesweeper.height g ≤ 0 ∨ Minesweeper.width g ≤ 0) ∧
      Z.of_nat (size (Minesweeper.mines g)) ≠ m
  end.
Proof.
  induction draws as [| [r1 r2] draws IH]; intros g r Hok; simpl.
  - case_bool_decide as Hm; [done |]. intros [= <-]. by split_and!.
  - case_bool_decide as Hm.
    2:{ intros [= <-]. by split_and!. }
    destruct (Z_lt_le_dec 0 (Minesweeper.height g)) as [Hh | Hh].
    2:{ rewrite (proj2 (randrange_spec _ r1) Hh). intros [= <-]. split_and!; auto. }
    destruct (proj1 (randrange_spec _ r1) Hh) as (i & -> & Hi).
    destruct (Z_lt_le_dec 0 (Minesweeper.width g)) as [Hw | Hw].
    2:{ rewrite (proj2 (randrange_spec _ r2) Hw). intros [= <-]. split_and!; auto. }
    destruct (proj1 (randrange_spec _ r2) Hw) as (j & -> & Hj).
    destruct (try_place_spec g i j Hok Hi Hj) as [Hold Hnew].
    destruct (decide ((i, j) ∈ Minesweeper.mines g)) as [Hin | Hout].
    + rewrite (Hold Hin). intros Hrun. by apply IH in Hrun.
    + destruct (Hnew Hout) as (g1 & -> & Hok1 & Hm1 & Hh1 & Hw1 & Hf1).
      intros Hrun. apply IH in Hrun; [| done]. destruct r as [g' | e].
      * destruct Hrun as (? & ? & Hsub & ? & ? & ?).
        split_and!; [done | done | | congruence | congruence | congruence].
        rewrite Hm1 in Hsub. set_solver.
      * destruct Hrun as (_ & Hdim & _). lia.
Qed.

Lemma length_product rows cols :
  length (product rows cols) = (length rows * length cols)%nat.
Proof.
  unfold product.
  assert (∀ r : Z, length (cols ≫= λ col, [(r, col)]) = length cols) as Hrow.
  { intros r. induction cols as [| c cols IHc]; [done |].
    rewrite bind_cons, length_app, IHc. done. }
  induction rows as [| r rows IH]; [done |].
  rewrite bind_cons, length_app, IH, Hrow. done.
Qed.

Lemma game_ok_size g :
  game_ok g →
  Z.of_nat (size (Minesweeper.mines g))
  ≤ Z.max 0 (Minesweeper.height g) * Z.max 0 (Minesweeper.width g).
Proof.
  intros (_ & _ & Hin & _).
  set (grid := product (range 0 (Minesweeper.height g)) (range 0 (Minesweeper.width g))).
  assert (Minesweeper.mines g ⊆ list_to_set grid) as Hsub.
  { intros c Hc. apply elem_of_list_to_set, elem_of_product.
    rewrite !elem_of_range. by apply Hin. }
  apply subseteq_size in Hsub.
  rewrite size_list_to_set in Hsub by (apply NoDup_product; apply NoDup_seqZ).
  unfold grid in Hsub. rewrite length_product in Hsub. unfold range in Hsub.
  rewrite !length_seqZ, !Z.sub_0_r in Hsub.
  assert (Z.of_nat (Z.to_nat (Minesweeper.height g) * Z.to_nat (Minesweeper.width g))
          = Z.max 0 (Minesweeper.height g) * Z.max 0 (Minesweeper.width g)) as <-.
  { rewrite Nat2Z.inj_mul. f_equal; lia. }
  lia.
Qed.

Lemma place_done draws m g :
  Z.of_nat (size (Minesweeper.mines g)) = m →
  Minesweeper.place draws m g = Some (Minesweeper.Ok g).
Proof.
  intros Hm. destruct draws as [| [r1 r2] draws]; cbn [Minesweeper.place];
    rewrite bool_decide_false; auto.
Qed.

Lemma place_nil m g :
  Z.of_nat (size (Minesweeper.mines g)) ≠ m → Minesweeper.place [] m g = None.
Proof. intros Hm. cbn [Minesweeper.place]. by rewrite bool_decide_true. Qed.

Lemma place_cons r1 r2 draws m g :
  Z.of_nat (size (Minesweeper.mines g)) ≠ m →
  Minesweeper.place ((r1, r2) :: draws) m g =
  match Minesweeper.randrange (Minesweeper.height g) r1 with
  | Minesweeper.Raise e => Some (Minesweeper.Raise e)
  | Minesweeper.Ok i =>
      match Minesweeper.randrange (Minesweeper.width g) r2 with
      | Minesweeper.Raise e => Some (Minesweeper.Raise e)
      | Minesweeper.Ok j =>
          match Minesweeper.try_place i j g with
          | Minesweeper.Raise e => Some (Minesweeper.Raise e)
          | Minesweeper.Ok g' => Minesweeper.place draws m g'
          end
      end
  end.
Proof. intros Hm. cbn [Minesweeper.place]. by rewrite bool_decide_true. Qed.

(** X11. A [Minesweeper(height, width, mines)] that is constructed has the
    asked dimensions and exactly [mines] mines, all on the board; its
    board has [height] rows of [width] entries and the entry of a cell
    tells whether the cell is a mine; [mines_found] is empty, so the game
    counts as won at once exactly when no mine was asked for.  Hence the
    constructor never returns when [mines] is negative or exceeds the
    number of cells. *)
Theorem minesweeper_init_ok
    (draws : list (Z * Z)) (h w m : Z) (g : Minesweeper.t) :
  Minesweeper.init draws h w m = Some (Minesweeper.Ok g) →
  game_ok g ∧
  Minesweeper.height g = h ∧ Minesweeper.width g = w ∧
  Z.of_nat (size (Minesweeper.mines g)) = m ∧
  0 ≤ m ≤ Z.max 0 h * Z.max 0 w ∧
  Minesweeper.mines_found g = ∅ ∧
  Minesweeper.won g = bool_decide (m = 0).
Proof.
  unfold Minesweeper.init. intros Hinit.
  destruct (Minesweeper.place draws m _) as [[g0 | e] |] eqn:Hplace;
    [| done | done].
  injection Hinit as <-.
  apply place_spec in Hplace; [| apply game_ok_empty].
  simpl in Hplace. destruct Hplace as (Hok & Hm & _ & Hh & Hw & _).
  assert (game_ok (Minesweeper.mk (Minesweeper.height g0) (Minesweeper.width g0)
                     (Minesweeper.mines g0) (Minesweeper.board g0) ∅)) as Hok'
    by exact Hok.
  pose proof (game_ok_size _ Hok') as Hsize. simpl in Hsize.
  split; [exact Hok' |]. simpl.
  split; [done |]. split; [done |]. split; [done |].
  split; [rewrite Hh, Hw in Hsize; lia |]. split; [done |].
  unfold Minesweeper.won. simpl. apply bool_decide_ext. split.
  - intros Heq. rewrite <- Heq, size_empty in Hm. lia.
  - intros ->. symmetry. apply leibniz_equiv, size_empty_iff. lia.
Qed.

Lemma small_game_ok : game_ok small_game.
Proof.
  assert (Minesweeper.place [(5, 7); (5, 7); (0, 1)] 2
            (Minesweeper.mk 2 3 ∅ (Minesweeper.empty_board 2 3) ∅)
          = Some (Minesweeper.Ok small_game)) as Hrun by (vm_compute; reflexivity).
  apply place_spec in Hrun; [| apply game_ok_empty]. by destruct Hrun.
Qed.

(** Two mines on a 2x3 board, the second draw hitting the first mine. *)
Lemma minesweeper_init_ok_witness : game_ok small_game.
Proof.
  refine (proj1 (minesweeper_init_ok [(5, 7); (5, 7); (0, 1)] 2 3 2 small_game _)).
  vm_compute; reflexivity.
Defined.

(** X12. How the constructor fails.  With [mines = 0] it returns at once,
    whatever the dimensions, with an all-[False] board.  Otherwise it needs
    draws; on its first draw it raises [ValueError] when [height] or
    [width] is not positive; and it raises nothing else: never an
    [IndexError], and no [ValueError] on a board with cells. *)
Theorem minesweeper_init_errors (draws : list (Z * Z)) (h w m : Z) :
  (m = 0 →
   Minesweeper.init draws h w m
   = Some (Minesweeper.Ok
             (Minesweeper.mk h w ∅
                (replicate (Z.to_nat h) (replicate (Z.to_nat w) false)) ∅))) ∧
  (m ≠ 0 → draws = [] → Minesweeper.init draws h w m = None) ∧
  (m ≠ 0 → draws ≠ [] → h ≤ 0 ∨ w ≤ 0 →
   Minesweeper.init draws h w m = Some (Minesweeper.Raise Minesweeper.ValueError)) ∧
  (∀ e, Minesweeper.init draws h w m = Some (Minesweeper.Raise e) →
        e = Minesweeper.ValueError ∧ m ≠ 0 ∧ (h ≤ 0 ∨ w ≤ 0)).
Proof.
  split_and!.
  - intros ->. unfold Minesweeper.init. rewrite place_done.
    + cbn. by rewrite empty_board_spec.
    + cbn. by rewrite size_empty.
  - intros Hm ->. unfold Minesweeper.init. rewrite place_nil; [done |].
    cbn. by rewrite size_empty.
  - intros Hm Hd Hdim. unfold Minesweeper.init.
    destruct draws as [| [r1 r2] draws]; [done |].
    rewrite place_cons by (cbn; by rewrite size_empty).
    cbn [Minesweeper.height Minesweeper.width].
    destruct (Z_lt_le_dec 0 h) as [Hh | Hh].
    + destruct (proj1 (randrange_spec h r1) Hh) as (i & -> & _).
      assert (w ≤ 0) as Hw by lia.
      by rewrite (proj2 (randrange_spec w r2) Hw).
    + by rewrite (proj2 (randrange_spec h r1) Hh).
  - intros e. unfold Minesweeper.init.
    destruct (Minesweeper.place draws m _) as [[g0 | e'] |] eqn:Hplace;
      [done | | done].
    intros [= ->]. apply place_spec in Hplace; [| apply game_ok_empty].
    cbn [Minesweeper.height Minesweeper.width Minesweeper.mines] in Hplace.
    destruct Hplace as (-> & Hdim & Hm).
    rewrite size_empty in Hm. split_and!; [done | | done]. intros ->. by apply Hm.
Qed.

(** X13. The constructor can succeed for every number of mines from 0 to
    the number of cells: some sequence of draws makes it return. *)
Theorem minesweeper_init_succeeds (h w m : Z) :
  0 ≤ m ≤ Z.max 0 h * Z.max 0 w →
  ∃ draws g, Minesweeper.init draws h w m = Some (Minesweeper.Ok g).
Proof.
  intros Hm.
  assert (∀ L g, game_ok g → NoDup L →
            (∀ c, c ∈ L → (0 ≤ c.1 < Minesweeper.height g ∧
                            0 ≤ c.2 < Minesweeper.width g) ∧
                           c ∉ Minesweeper.mines g) →
            Z.of_nat (size (Minesweeper.mines g) + length L) = m →
            ∃ g', Minesweeper.place L m g = Some (Minesweeper.Ok g')) as Hplace.
  { induction L as [| [i j] L IH]; intros g Hok Hnd HL Hsz.
    - rewrite place_done by (simpl in Hsz; lia). by exists g.
    - rewrite place_cons by (simpl in Hsz; lia).
      destruct (HL (i, j)) as [[Hi Hj] Hout]; [apply list_elem_of_here |].
      simpl in Hi, Hj. unfold Minesweeper.randrange.
      rewrite !bool_decide_true by lia. rewrite !Z.mod_small by lia.
      destruct (try_place_spec g i j Hok Hi Hj) as [_ Hnew].
      destruct (Hnew Hout) as (g1 & -> & Hok1 & Hm1 & Hh1 & Hw1 & _).
      apply list.NoDup_cons in Hnd as [Hnotin Hnd].
      apply IH; [done | done | |].
      + intros c Hc. destruct (HL c) as [Hb Hc']; [by apply list_elem_of_further |].
        rewrite Hh1, Hw1, Hm1. split; [done |].
        intros [Heq | Hin]%elem_of_union; [| done].
        apply elem_of_singleton in Heq as ->. done.
      + rewrite Hm1, size_union, size_singleton by set_solver. simpl in Hsz. lia. }
  set (grid := product (range 0 h) (range 0 w)).
  assert (length grid = (Z.to_nat h * Z.to_nat w)%nat) as Hlen.
  { unfold grid. rewrite length_product. unfold range.
    by rewrite !length_seqZ, !Z.sub_0_r. }
  assert (Z.of_nat (Z.to_nat h * Z.to_nat w) = Z.max 0 h * Z.max 0 w) as Hmul.
  { rewrite Nat2Z.inj_mul. f_equal; lia. }
  destruct (Hplace (take (Z.to_nat m) grid)
              (Minesweeper.mk h w ∅ (Minesweeper.empty_board h w) ∅))
    as (g' & Hg').
  - apply game_ok_empty.
  - apply (sublist_NoDup _ grid); [| apply sublist_take].
    apply NoDup_product; apply NoDup_seqZ.
  - intros c Hc. simpl. split; [| set_solver].
    assert (c ∈ grid) as Hin.
    { apply elem_of_take in Hc as (k & Hk & _). by eapply list_elem_of_lookup_2. }
    apply elem_of_product in Hin. by rewrite !elem_of_range in Hin.
  - cbn [Minesweeper.mines]. rewrite size_empty, length_take_le by lia. lia.
  - exists (take (Z.to_nat m) grid). eexists.
    unfold Minesweeper.init. by rewrite Hg'.
Qed.

(** Five mines fit a 2x3 board. *)
Lemma minesweeper_init_succeeds_witness :
  ∃ draws g, Minesweeper.init draws 2 3 5 = Some (Minesweeper.Ok g).
Proof. apply minesweeper_init_succeeds. lia. Defined.

(** ** The board: queries *)

Lemma getitem_spec {A} (l : list A) (n i : Z) :
  length l = Z.to_nat n →
  Minesweeper.getitem l i =
  if bool_decide (0 ≤ wrap n i < n)
  then match l !! Z.to_nat (wrap n i) with
       | Some x => Minesweeper.Ok x
       | None => Minesweeper.Raise Minesweeper.IndexError
       end
  else Minesweeper.Raise Minesweeper.IndexError.
Proof.
  intros Hlen. unfold Minesweeper.getitem, wrap. rewrite Hlen.
  destruct (Z_lt_le_dec 0 n) as [Hn | Hn].
  - by rewrite Z2Nat.id by lia.
  - replace (Z.of_nat (Z.to_nat n)) with 0 by lia.
    destruct (bool_decide (i < 0)); cbv zeta;
      rewrite (bool_decide_false (0 ≤ _ < 0)) by lia;
      by rewrite (bool_decide_false (0 ≤ _ < n)) by lia.
Qed.

(** X14. [is_mine] on a game as constructed, for any pair of integers:
    with each index read by Python's rule (a negative index counts from
    the end), it tells whether the cell read is in [mines] when both
    indices fall on the board, and raises [IndexError] otherwise. *)
Theorem is_mine_spec (g : Minesweeper.t) (cell : Cell) :
  game_ok g →
  Minesweeper.is_mine g cell =
  if bool_decide
       (0 ≤ wrap (Minesweeper.height g) cell.1 < Minesweeper.height g ∧
        0 ≤ wrap (Minesweeper.width g) cell.2 < Minesweeper.width g)
  then Minesweeper.Ok
         (bool_decide ((wrap (Minesweeper.height g) cell.1,
                        wrap (Minesweeper.width g) cell.2) ∈ Minesweeper.mines g))
  else Minesweeper.Raise Minesweeper.IndexError.
Proof.
  intros Hok. pose proof Hok as (Hlen & Hrows & _ & _).
  unfold Minesweeper.is_mine.
  rewrite (getitem_spec _ (Minesweeper.height g)) by done.
  set (i := wrap (Minesweeper.height g) cell.1).
  set (j := wrap (Minesweeper.width g) cell.2).
  destruct (decide (0 ≤ i < Minesweeper.height g)) as [Hi | Hi].
  2:{ rewrite (bool_decide_false (0 ≤ i < _)) by done. simpl.
      by rewrite bool_decide_false by tauto. }
  rewrite (bool_decide_true (0 ≤ i < _)) by done.
  assert (Z.to_nat i < length (Minesweeper.board g))%nat as Hlt by lia.
  apply lookup_lt_is_Some_2 in Hlt as [row Hrow]. rewrite Hrow. simpl.
  assert (length row = Z.to_nat (Minesweeper.width g)) as Hrowlen.
  { rewrite list.Forall_forall in Hrows. apply Hrows.
    by eapply list_elem_of_lookup_2. }
  rewrite (getitem_spec _ (Minesweeper.width g)) by done. fold j.
  destruct (decide (0 ≤ j < Minesweeper.width g)) as [Hj | Hj].
  2:{ rewrite (bool_decide_false (0 ≤ j < _)) by done.
      by rewrite bool_decide_false by tauto. }
  rewrite (bool_decide_true (0 ≤ j < _)) by done.
  rewrite bool_decide_true by done.
  destruct (game_ok_lookup g i j Hok Hi Hj) as (row' & Hrow' & _ & Hc).
  rewrite Hrow in Hrow'. injection Hrow' as <-. by rewrite Hc.
Qed.

(** On the 2x3 game, (-1,-2) reads the cell (1,1), a mine. *)
Lemma is_mine_spec_witness :
  Minesweeper.is_mine small_game (-1, -2) = Minesweeper.Ok true.
Proof.
  rewrite (is_mine_spec small_game (-1, -2)); [done |].
  apply small_game_ok.
Defined.


Lemma foldl_look g cell L :
  game_ok g → ∀ k,
  foldl (Minesweeper.look g cell) (Minesweeper.Ok k) L =
  Minesweeper.Ok
    (k + Z.of_nat (length (filter
       (λ rc, (rc ≠ cell ∧
               on_board (MinesweeperAI.init (Minesweeper.height g)
                                            (Minesweeper.width g)) rc) ∧
              rc ∈ Minesweeper.mines g) L))).
Proof.
  intros Hok. induction L as [| [i j] L IH]; intros k.
  - simpl. f_equal. lia.
  - cbn [foldl]. rewrite filter_cons.
    unfold Minesweeper.look at 2. cbn [Minesweeper.bind].
    destruct (decide ((i, j) = cell)) as [Heq | Hne].
    { rewrite bool_decide_true by done. rewrite decide_False by tauto. apply IH. }
    rewrite bool_decide_false by done. cbn [fst snd].
    destruct (decide (0 ≤ i < Minesweeper.height g)) as [Hi | Hi].
    2:{ rewrite (bool_decide_false (0 ≤ i < _)) by done. cbn [andb].
        rewrite decide_False by (unfold on_board; simpl; tauto). apply IH. }
    rewrite (bool_decide_true (0 ≤ i < _)) by done. cbn [andb].
    destruct (decide (0 ≤ j < Minesweeper.width g)) as [Hj | Hj].
    2:{ rewrite (bool_decide_false (0 ≤ j < _)) by done.
        rewrite decide_False by (unfold on_board; simpl; tauto). apply IH. }
    rewrite (bool_decide_true (0 ≤ j < _)) by done.
    rewrite (is_mine_on_board g i j Hok Hi Hj). cbn [Minesweeper.bind].
    destruct (decide ((i, j) ∈ Minesweeper.mines g)) as [Hin | Hout].
    + rewrite bool_decide_true by done.
      rewrite decide_True by (unfold on_board; simpl; tauto).
      rewrite IH. cbn [length]. f_equal. lia.
    + rewrite bool_decide_false by done.
      rewrite decide_False by tauto. apply IH.
Qed.

Lemma nearby_mines_count g cell :
  game_ok g →
  Minesweeper.nearby_mines g cell =
  Minesweeper.Ok
    (Z.of_nat (size (board_neighbours
                       (MinesweeperAI.init (Minesweeper.height g)
                                           (Minesweeper.width g)) cell
                     ∩ Minesweeper.mines g))).
Proof.
  intros Hok. unfold Minesweeper.nearby_mines. rewrite foldl_look by done.
  rewrite Z.add_0_l. do 2 f_equal.
  rewrite <- (size_list_to_set (C:=gset Cell)) by apply list.NoDup_filter, NoDup_block.
  f_equal. apply set_eq. intros rc.
  rewrite elem_of_list_to_set, list_elem_of_filter, elem_of_intersection.
  unfold board_neighbours. rewrite elem_of_list_to_set, list_elem_of_filter. tauto.
Qed.

(** X15. [nearby_mines] on a game as constructed never raises, for any
    cell, on or off the board: it returns the number of mines among the
    in-bounds cells around the cell (the cell itself excluded), a number
    from 0 to 8. *)
Theorem nearby_mines_spec (g : Minesweeper.t) (cell : Cell) :
  game_ok g →
  ∃ N : gset Cell,
    (∀ rc, rc ∈ N ↔
           adjacent cell rc ∧
           0 ≤ rc.1 < Minesweeper.height g ∧ 0 ≤ rc.2 < Minesweeper.width g) ∧
    Minesweeper.nearby_mines g cell
      = Minesweeper.Ok (Z.of_nat (size (N ∩ Minesweeper.mines g))) ∧
    (size (N ∩ Minesweeper.mines g) ≤ 8)%nat.
Proof.
  intros Hok.
  exists (board_neighbours
            (MinesweeperAI.init (Minesweeper.height g) (Minesweeper.width g)) cell).
  split_and!.
  - intros rc. by rewrite elem_of_board_neighbours.
  - by apply nearby_mines_count.
  - etrans; [| apply (size_board_neighbours
                        (MinesweeperAI.init (Minesweeper.height g)
                                            (Minesweeper.width g)) cell)].
    apply subseteq_size. set_solver.
Qed.

(** Around (0,0) of the 2x3 game lie the two mines. *)
Lemma nearby_mines_spec_witness :
  ∃ n, Minesweeper.nearby_mines small_game (0, 0) = Minesweeper.Ok n ∧ 0 ≤ n ≤ 8.
Proof.
  destruct (nearby_mines_spec small_game (0, 0) small_game_ok)
    as (N & _ & HN & Hle).
  eexists. split; [exact HN | lia].
Defined.

(** ** An honest game *)





(** ** The board: printing *)

Lemma foldl_write {A B} (step : list ascii * option Minesweeper.exn → A →
                                list ascii * option Minesweeper.exn)
    (text : B → list ascii) (R : A → B → Prop) :
  (∀ out a b, R a b → step (out, None) a = (out ++ text b, None)) →
  ∀ xs ys, Forall2 R xs ys →
  ∀ out, foldl step (out, None) xs = (out ++ concat (text <$> ys), None).
Proof.
  intros Hstep xs ys HR. induction HR as [| a b xs ys Hab _ IH]; intros out; simpl.
  - by rewrite app_nil_r.
  - rewrite (Hstep _ _ _ Hab), IH, <- app_assoc. done.
Qed.

Lemma Forall2_range {B} (R : Z → B → Prop) (n : Z) (l : list B) :
  length l = Z.to_nat n →
  (∀ k x, 0 ≤ k < n → l !! Z.to_nat k = Some x → R k x) →
  Forall2 R (range 0 n) l.
Proof.
  intros Hlen HR. apply Forall2_same_length_lookup_2.
  - unfold range. by rewrite length_seqZ, Z.sub_0_r.
  - intros i k x Hk Hx. unfold range in Hk.
    apply lookup_seqZ in Hk as [-> Hi]. apply HR; [lia |].
    by rewrite Z.add_0_l, Nat2Z.id.
Qed.

Lemma read_row_text row : read_row (row_text row) = row.
Proof.
  unfold row_text. induction row as [| b row IH]; [done |].
  rewrite fmap_cons. cbn [concat]. destruct b; simpl; rewrite IH; done.
Qed.

Lemma length_row_text row : length (row_text row) = (2 * length row + 1)%nat.
Proof.
  unfold row_text. rewrite List.length_app. simpl.
  assert (length (concat ((λ b : bool, if b then ["|"; "X"]%char
                                       else ["|"; " "]%char) <$> row))
          = (2 * length row)%nat) as ->; [| lia].
  induction row as [| b row IH]; [done |].
  rewrite fmap_cons. cbn [concat]. rewrite List.length_app, IH.
  destruct b; simpl; lia.
Qed.

Lemma newline_not_in_row_text row : Minesweeper.newline ∉ row_text row.
Proof.
  unfold row_text. induction row as [| b row IH].
  - simpl. intros H. apply list_elem_of_singleton in H. done.
  - rewrite fmap_cons. cbn [concat]. intros H.
    apply IH. destruct b; simpl in H;
      apply elem_of_cons in H as [H | H]; try done;
      apply elem_of_cons in H as [H | H]; done.
Qed.

Lemma print_cells g i row :
  game_ok g → 0 ≤ i < Minesweeper.height g →
  Minesweeper.board g !! Z.to_nat i = Some row →
  ∀ out,
  foldl (Minesweeper.print_cell g i) (out, None) (range 0 (Minesweeper.width g))
  = (out ++ concat ((λ b : bool, if b then ["|"; "X"]%char else ["|"; " "]%char)
                    <$> row), None).
Proof.
  intros Hok Hi Hrow.
  apply (foldl_write _ _
           (λ j b, 0 ≤ j < Minesweeper.width g ∧ row !! Z.to_nat j = Some b)).
  - intros out j b [Hj Hb]. unfold Minesweeper.print_cell.
    rewrite (getitem_nonneg _ _ row) by (done || lia). simpl.
    rewrite (getitem_nonneg _ _ b) by (done || lia). by destruct b.
  - apply Forall2_range.
    + pose proof Hok as (_ & Hrows & _). rewrite list.Forall_forall in Hrows.
      apply Hrows. by eapply list_elem_of_lookup_2.
    + intros k x Hk Hx. done.
Qed.

(** X17. [print] on a game as constructed raises nothing and writes
    [height] blocks of two lines, a line of [2 * width + 1] dashes and the
    text of a board row, followed by a last line of dashes.  The text of a
    row has [2 * width + 1] characters, none of them a line end, and reads
    back as the row: the character after the [j]-th bar is [X] exactly when
    the entry of the cell is [True]. *)
Theorem print_spec (g : Minesweeper.t) :
  game_ok g →
  ∃ texts : list (list ascii),
    Minesweeper.print g =
      (concat ((λ text, Minesweeper.dashes (Minesweeper.width g)
                        ++ [Minesweeper.newline] ++ text ++ [Minesweeper.newline])
               <$> texts)
       ++ Minesweeper.dashes (Minesweeper.width g) ++ [Minesweeper.newline],
       None) ∧
    read_row <$> texts = Minesweeper.board g ∧
    Forall (λ text, length text = (2 * Z.to_nat (Minesweeper.width g) + 1)%nat ∧
                    Minesweeper.newline ∉ text) texts ∧
    length (Minesweeper.dashes (Minesweeper.width g))
      = (2 * Z.to_nat (Minesweeper.width g) + 1)%nat.
Proof.
  intros Hok. pose proof Hok as (Hlen & Hrows & _).
  exists (row_text <$> Minesweeper.board g). split_and!.
  - unfold Minesweeper.print.
    assert (foldl (Minesweeper.print_row g) ([], None)
                  (range 0 (Minesweeper.height g))
            = ([] ++ concat ((λ row, Minesweeper.dashes (Minesweeper.width g)
                                     ++ [Minesweeper.newline] ++ row_text row
                                     ++ [Minesweeper.newline])
                             <$> Minesweeper.board g), None)) as ->.
    { apply (foldl_write _ _
               (λ i row, 0 ≤ i < Minesweeper.height g ∧
                         Minesweeper.board g !! Z.to_nat i = Some row)).
      - intros out i row [Hi Hrow]. unfold Minesweeper.print_row.
        rewrite (print_cells g i row Hok Hi Hrow). unfold row_text.
        f_equal. rewrite <- !app_assoc. done.
      - apply Forall2_range; [done |]. intros k x Hk Hx. done. }
    simpl. by rewrite <- list_fmap_compose.
  - rewrite <- list_fmap_compose. etrans; [| apply list_fmap_id].
    apply list_fmap_ext. intros _ row _. simpl. apply read_row_text.
  - apply Forall_fmap. eapply Forall_impl; [| exact Hrows].
    intros row Hrow. simpl. split; [| apply newline_not_in_row_text].
    rewrite length_row_text, Hrow. done.
  - unfold Minesweeper.dashes. rewrite List.length_app. simpl.
    assert (∀ n, length (concat (replicate n ["-"; "-"]%char)) = (2 * n)%nat) as ->.
    { induction n as [| n IH]; [done |]. simpl. rewrite IH. lia. }
    lia.
Qed.

(** The 2x3 game prints two rows, each with an [X] in the middle. *)
Lemma print_spec_witness :
  ∃ texts : list (list ascii),
    read_row <$> texts = [[false; true; false]; [false; true; false]] ∧
    (Minesweeper.print small_game).2 = None.
Proof.
  destruct (print_spec small_game small_game_ok) as (texts & Hp & Hr & _).
  exists texts. split; [exact Hr |]. by rewrite Hp.
Defined.

(** ** What a sentence knows *)

(** X18. [known_mines] and [known_safes] return cells of the sentence and
    never share a cell: no cell is reported both a mine and safe.  For a
    Sentence that is true of a mine layout (exactly [count] of its cells
    are mines) every cell of [known_mines] is a mine and no cell of
    [known_safes] is. *)
Theorem known_sets_spec (s : Sentence.t) :
  Sentence.known_mines s ⊆ Sentence.cells s ∧
  Sentence.known_safes s ⊆ Sentence.cells s ∧
  Sentence.known_mines s ∩ Sentence.known_safes s = ∅ ∧
  (∀ M, holds_in M s →
        Sentence.known_mines s ⊆ M ∧ Sentence.known_safes s ∩ M = ∅).
Proof.
  unfold Sentence.known_mines, Sentence.known_safes. split_and!.
  - case_bool_decide; set_solver.
  - case_bool_decide; set_solver.
  - destruct (decide (Sentence.count s = Z.of_nat (size (Sentence.cells s))))
      as [Hm | Hm]; [| rewrite (bool_decide_false _ Hm); set_solver].
    destruct (decide (Sentence.count s = 0)) as [Hz | Hz];
      [| rewrite (bool_decide_false _ Hz); set_solver].
    assert (Sentence.cells s = ∅) as ->.
    { apply leibniz_equiv, size_empty_iff. lia. }
    case_bool_decide; set_solver.
  - intros M Hh. split.
    + case_bool_decide as Hm; [| set_solver]. by apply holds_in_all_mines.
    + case_bool_decide as Hz; [| set_solver]. by apply holds_in_all_safe.
Qed.
